(** * eatiht: extraction of article text from a parsed HTML document

    A shallow embedding of [eatiht.py].  The parsed document (the result of
    [lxml.html.parse]) is the input of the model; retrieval and parsing are
    outside of it.  Python strings are lists of characters, a character being
    a code point below 256.  The regular expressions and the XPath query of
    the module are embedded by their semantics: a regular expression is a
    matcher tried at every position from left to right, an XPath location path
    is a sequence of steps over node-sets kept in document order.  Python is
    Python 3.7 or later: the classes [\s] and [\d] are those of [str]
    patterns, and a [Counter] keeps its keys in the order of insertion. *)

From Stdlib Require Import List Ascii String ZArith Lia Bool Arith DecimalString.
From Stdlib Require Import Permutation Sorted.
Import ListNotations.
Open Scope string_scope.
Open Scope list_scope.
Open Scope nat_scope.

(** ** Strings *)

Abbreviation str := (list ascii) (only parsing).

Coercion list_ascii_of_string : string >-> list.

Module Str.

(** The double quote and the newline, which a literal cannot hold. *)
Definition dquote : ascii := ascii_of_nat 34.
Definition newline : ascii := ascii_of_nat 10.

Fixpoint eqb (a b : str) : bool :=
  match a, b with
  | [], [] => true
  | x :: a', y :: b' => Ascii.eqb x y && eqb a' b'
  | _, _ => false
  end.

(** [startswith s p]: [s.startswith(p)]. *)
Fixpoint startswith (s p : str) {struct p} : bool :=
  match p, s with
  | [], _ => true
  | y :: p', x :: s' => Ascii.eqb x y && startswith s' p'
  | _ :: _, [] => false
  end.

(** [endswith s p]: [s.endswith(p)]. *)
Definition endswith (s p : str) : bool := startswith (rev s) (rev p).

(** [endswith_any s ps]: [s.endswith(tuple(ps))]. *)
Definition endswith_any (s : str) (ps : list str) : bool :=
  existsb (endswith s) ps.

(** [contains p s]: the substring test [p in s]. *)
Fixpoint contains (p s : str) : bool :=
  startswith s p ||
  match s with
  | [] => false
  | _ :: s' => contains p s'
  end.

(** [split sep s]: [s.split(sep)] for a separator of one character. *)
Fixpoint split (sep : ascii) (s : str) : list str :=
  match s with
  | [] => [[]]
  | c :: s' =>
      if Ascii.eqb c sep then [] :: split sep s'
      else match split sep s' with
           | h :: t => (c :: h) :: t
           | [] => [[c]]
           end
  end.

(** [join sep l]: [sep.join(l)]. *)
Fixpoint join (sep : str) (l : list str) : str :=
  match l with
  | [] => []
  | [x] => x
  | x :: l' => x ++ sep ++ join sep l'
  end.

(** [of_nat n]: [str(n)], also the [%d] of a path index. *)
Definition of_nat (n : nat) : str :=
  NilEmpty.string_of_uint (Nat.to_uint n).

End Str.

(** ** Character classes *)

Module Chr.

Definition code (c : ascii) : nat := nat_of_ascii c.

(** [\s] of a Python 3 [str] pattern, among the code points below 256. *)
Definition is_space (c : ascii) : bool :=
  let n := code c in
  ((9 <=? n) && (n <=? 13)) || ((28 <=? n) && (n <=? 32))
  || (n =? 133) || (n =? 160).

(** [\d], among the code points below 256. *)
Definition is_digit (c : ascii) : bool :=
  let n := code c in (48 <=? n) && (n <=? 57).

(** White space of XPath 1.0: space, tab, line feed, carriage return. *)
Definition is_xml_space (c : ascii) : bool :=
  let n := code c in (n =? 32) || (n =? 9) || (n =? 10) || (n =? 13).

Definition lower (c : ascii) : ascii :=
  let n := code c in
  if (65 <=? n) && (n <=? 90) then ascii_of_nat (n + 32) else c.

(** Equality of characters under [re.IGNORECASE]. *)
Definition ci_eqb (a b : ascii) : bool := Ascii.eqb (lower a) (lower b).

Definition one_of (cs : str) (c : ascii) : bool :=
  existsb (Ascii.eqb c) cs.

End Chr.

(** ** Regular expressions

    A compiled pattern is a matcher: given the text before a position (last
    character first) and the text from that position on, it returns the length
    of the match that starts there, if there is one.  The two patterns of the
    module match no empty string. *)

Module Re.

Definition pattern := list ascii -> str -> option nat.

(** The scan of [pattern.split(s)]: [before] is the text already passed,
    last character first, [cur] the piece being built, last character first,
    and [skip] the number of characters of the current match still to pass. *)
Fixpoint split_go (m : pattern) (before cur : list ascii) (skip : nat)
         (s : str) : list str :=
  match s with
  | [] => [rev cur]
  | c :: rest =>
      match skip with
      | S k => split_go m (c :: before) cur k rest
      | O =>
          match m before s with
          | Some (S k) => rev cur :: split_go m (c :: before) [] k rest
          | _ => split_go m (c :: before) (c :: cur) 0 rest
          end
      end
  end.

Definition split (m : pattern) (s : str) : list str := split_go m [] [] 0 s.

(** The scan of [pattern.sub('', s)]. *)
Fixpoint sub_go (m : pattern) (before : list ascii) (skip : nat) (s : str)
  : str :=
  match s with
  | [] => []
  | c :: rest =>
      match skip with
      | S k => sub_go m (c :: before) k rest
      | O =>
          match m before s with
          | Some (S k) => sub_go m (c :: before) k rest
          | _ => c :: sub_go m (c :: before) 0 rest
          end
      end
  end.

Definition sub_empty (m : pattern) (s : str) : str := sub_go m [] 0 s.

(** Length of the longest prefix of [s] made of characters of class [p]. *)
Fixpoint span (p : ascii -> bool) (s : str) : nat :=
  match s with
  | c :: s' => if p c then S (span p s') else 0
  | [] => 0
  end.

(** [(?<=[cs])]: the character before the position is one of [cs]. *)
Definition behind_class (cs : str) (before : list ascii) : bool :=
  match before with
  | c :: _ => Chr.one_of cs c
  | [] => false
  end.

(** [(?<=[cs][qs])]. *)
Definition behind_class2 (cs qs : str) (before : list ascii) : bool :=
  match before with
  | q :: c :: _ => Chr.one_of qs q && Chr.one_of cs c
  | _ => false
  end.

Fixpoint ci_startswith (l p : list ascii) {struct p} : bool :=
  match p, l with
  | [], _ => true
  | a :: p', b :: l' => Chr.ci_eqb a b && ci_startswith l' p'
  | _ :: _, [] => false
  end.

(** The text before the position ends with [w], whatever the case. *)
Definition behind_word (w : str) (before : list ascii) : bool :=
  ci_startswith before (rev w).

End Re.

(** [bracket_pattern = re.compile('(\[\d*\])')] *)
Definition bracket_pattern : Re.pattern :=
  fun _ s =>
    match s with
    | c :: s' =>
        if Ascii.eqb c "[" then
          let d := Re.span Chr.is_digit s' in
          match skipn d s' with
          | c' :: _ => if Ascii.eqb c' "]" then Some (d + 2) else None
          | [] => None
          end
        else None
    | [] => None
    end.

Definition abbreviations : list str :=
  ["Mr." : str; "Mrs." : str; "Jr." : str; "Dr." : str; "Prof." : str;
   "Sr." : str].

(** [sentence_token_pattern]: white space that follows an end of sentence,
    one of [. ! ?] or one of them and a quote, single or double, and that
    does not follow one of the abbreviations. *)
Definition sentence_token_pattern : Re.pattern :=
  fun before s =>
    if (Re.behind_class ".!?" before
        || Re.behind_class2 ".!?" [Str.dquote; "'"%char] before)
       && forallb (fun w => negb (Re.behind_word w before)) abbreviations
    then
      match Re.span Chr.is_space s with
      | O => None
      | n => Some n
      end
    else None.

Definition sentence_ending : list str :=
  ["." : str; [Str.dquote]; "?" : str; "!" : str; "'" : str].

(** The paragraph break ['\n\n']. *)
Definition paragraph_break : str := [Str.newline; Str.newline].

(** The pieces of the text of one node:
    [sentence_token_pattern.split(bracket_pattern.sub('', text))]. *)
Definition pieces (text : str) : list str :=
  Re.split sentence_token_pattern (Re.sub_empty bracket_pattern text).

Definition enumerate {A} (l : list A) : list (nat * A) :=
  combine (seq 0 (List.length l)) l.

(** The inner loop of the comprehension of [get_sentence_xpath_tuples], for one
    node of path [xp] and of text [text]. *)
Definition node_pairs (xp text : str) : list (str * str) :=
  flat_map
    (fun es : nat * str =>
       let (e, s) := es in
       if Str.endswith_any s sentence_ending
       then [(if e =? 0 then paragraph_break ++ s else s, xp)]
       else [])
    (enumerate (pieces text)).

(** The sentences of a text: the pieces that pass the test of the
    comprehension, before any paragraph break is added. *)
Definition sentences (text : str) : list str :=
  filter (fun s => Str.endswith_any s sentence_ending) (pieces text).

(** ** The document tree

    What [lxml.html.parse] returns: a root node above one root element; an
    element has a tag and an ordered list of children, elements and text nodes. *)

#[warnings="-register-all"]
Inductive node : Type :=
| Text (s : str)
| Elem (tag : str) (children : list node).

(** A document is its root element. *)
Definition document := node.

(** A node is named by its position: the indices to follow from the root node,
    which is [[]]; the root element is [[0]]. *)
Definition pos := list nat.

Module Dom.

Fixpoint node_in (forest : list node) (p : pos) : option node :=
  match p with
  | [] => None
  | i :: q =>
      match nth_error forest i with
      | Some n =>
          match q with
          | [] => Some n
          | _ :: _ =>
              match n with
              | Elem _ ks => node_in ks q
              | Text _ => None
              end
          end
      | None => None
      end
  end.

(** The node at a position; the root node is no element and no text. *)
Definition node_at (doc : document) (p : pos) : option node :=
  node_in [doc] p.

(** Positions under a list of siblings, given those under each of them. *)
Definition number (subs : list (list pos)) : list pos :=
  flat_map (fun ip : nat * list pos => map (cons (fst ip)) (snd ip))
           (enumerate subs).

(** A node and its descendants, in document order, relative to the node. *)
Fixpoint subtree (n : node) : list pos :=
  [] :: match n with
        | Text _ => []
        | Elem _ ks => number (map subtree ks)
        end.

(** All the nodes of a document in document order, the root node first. *)
Definition positions (doc : document) : list pos :=
  [] :: number (map subtree [doc]).

Fixpoint pos_eqb (p q : pos) : bool :=
  match p, q with
  | [], [] => true
  | i :: p', j :: q' => (i =? j) && pos_eqb p' q'
  | _, _ => false
  end.

(** [is_prefix p q]: [q] is [p] or below [p]. *)
Fixpoint is_prefix (p q : pos) {struct p} : bool :=
  match p, q with
  | [], _ => true
  | i :: p', j :: q' => (i =? j) && is_prefix p' q'
  | _ :: _, [] => false
  end.

(** [is_child p q]: [q] is a child of [p]. *)
Definition is_child (p q : pos) : bool :=
  match q with
  | [] => false
  | _ :: _ => pos_eqb (removelast q) p
  end.

Definition text_of (doc : document) (p : pos) : str :=
  match node_at doc p with
  | Some (Text s) => s
  | _ => []
  end.

(** The string-value of a node: of a text node its text, of another node the
    texts of the text nodes under it, in document order, put together. *)
Definition string_value (doc : document) (p : pos) : str :=
  match node_at doc p with
  | Some (Text s) => s
  | _ =>
      List.concat (map (text_of doc) (filter (is_prefix p) (positions doc)))
  end.

Definition same_name (a b : node) : bool :=
  match a, b with
  | Text _, Text _ => true
  | Elem s _, Elem t _ => Str.eqb s t
  | _, _ => false
  end.

Definition name_of (n : node) : str :=
  match n with
  | Text _ => "text()"
  | Elem t _ => t
  end.

(** The index that [getpath] gives to the node [i] of [forest]: none when no
    sibling has its name, else its rank among the siblings of that name. *)
Definition occurrence (forest : list node) (i : nat) (n : node) : str :=
  let before := List.length (filter (same_name n) (firstn i forest)) in
  let after := List.length (filter (same_name n) (skipn (S i) forest)) in
  match before, after with
  | O, O => []
  | _, _ => "[" ++ Str.of_nat (S before) ++ "]"
  end.

Fixpoint getpath_in (forest : list node) (p : pos) : str :=
  match p with
  | [] => []
  | i :: q =>
      match nth_error forest i with
      | Some n =>
          "/" ++ name_of n ++ occurrence forest i n ++
          match n with
          | Elem _ ks => getpath_in ks q
          | Text _ => []
          end
      | None => []
      end
  end.

(** [parsed_html.getroot().getroottree().getpath]. *)
Definition getpath (doc : document) (p : pos) : str :=
  match p with
  | [] => "/"
  | _ :: _ => getpath_in [doc] p
  end.

End Dom.

(** ** XPath

    The location paths that the module uses, without abbreviation: [//] is
    [/descendant-or-self::node()/], [..] is [parent::node()], a bare name test
    is on the child axis.  A step maps a node-set to the node-set of the nodes
    that are on its axis from some node of the set and that pass its test and
    its predicates; a node-set is kept in document order, each node once. *)

Module XPath.

Inductive axis := Child | DescendantOrSelf | Parent | Self.

Inductive node_test :=
| AnyNode                (* node() *)
| AnyElement             (* * *)
| Named (tag : str)      (* tag *)
| IsText.                (* text() *)

Inductive pred :=
| Not (a : pred)                (* not(a) *)
| Or (a b : pred)               (* a or b *)
| SelfNamed (tag : str)         (* self::tag *)
| NormLengthGt (n : Z).         (* string-length(normalize-space()) > n *)

Record step := Step
  { step_axis : axis; step_test : node_test; step_preds : list pred }.

Definition path := list step.

(** [normalize-space]: leading and trailing white space is removed, a run of
    white space inside becomes one space.  [gap] tells that white space was
    met after some other character. *)
Fixpoint normalize_go (started gap : bool) (s : str) : str :=
  match s with
  | [] => []
  | c :: s' =>
      if Chr.is_xml_space c then normalize_go started started s'
      else if gap then " "%char :: c :: normalize_go true false s'
           else c :: normalize_go true false s'
  end.

Definition normalize_space (s : str) : str := normalize_go false false s.

(** [on_axis a p q]: [q] is on the axis [a] of the context node [p]. *)
Definition on_axis (a : axis) (p q : pos) : bool :=
  match a with
  | Child => Dom.is_child p q
  | DescendantOrSelf => Dom.is_prefix p q
  | Parent => Dom.is_child q p
  | Self => Dom.pos_eqb p q
  end.

Definition test (doc : document) (t : node_test) (q : pos) : bool :=
  match t, Dom.node_at doc q with
  | AnyNode, _ => true
  | AnyElement, Some (Elem _ _) => true
  | Named tag, Some (Elem tag' _) => Str.eqb tag' tag
  | IsText, Some (Text _) => true
  | _, _ => false
  end.

Fixpoint holds (doc : document) (a : pred) (q : pos) : bool :=
  match a with
  | Not a => negb (holds doc a q)
  | Or a b => holds doc a q || holds doc b q
  | SelfNamed tag => test doc (Named tag) q
  | NormLengthGt n =>
      (n <? Z.of_nat (List.length (normalize_space (Dom.string_value doc q))))%Z
  end.

Definition eval_step (doc : document) (st : step) (ctx : list pos)
  : list pos :=
  filter
    (fun q =>
       existsb (fun p => on_axis (step_axis st) p q) ctx
       && test doc (step_test st) q
       && forallb (fun a => holds doc a q) (step_preds st))
    (Dom.positions doc).

Definition eval (doc : document) (e : path) (ctx : list pos) : list pos :=
  fold_left (fun set st => eval_step doc st set) e ctx.

(** [tree.xpath(e)]: an absolute path starts from the root node. *)
Definition xpath (doc : document) (e : path) : list pos := eval doc e [[]].

(** [n.xpath(e)] for a relative path. *)
Definition xpath_from (doc : document) (n : pos) (e : path) : list pos :=
  eval doc e [n].

End XPath.

Import XPath.

(** [not(self::script or self::style or self::i or self::b or self::strong
    or self::span or self::a)] *)
Definition not_wrapper : pred :=
  Not (Or (Or (Or (Or (Or (Or (SelfNamed "script") (SelfNamed "style"))
                              (SelfNamed "i"))
                          (SelfNamed "b"))
                      (SelfNamed "strong"))
                  (SelfNamed "span"))
          (SelfNamed "a")).

(** [LEADING_XPATH + str(n) + TO_PARENT]:
    [//body//*[not(...)]/text()[string-length(normalize-space()) > n]/..] *)
Definition text_finder (n : Z) : path :=
  [ Step DescendantOrSelf AnyNode [];
    Step Child (Named "body") [];
    Step DescendantOrSelf AnyNode [];
    Step Child AnyElement [not_wrapper];
    Step Child IsText [NormLengthGt n];
    Step Parent AnyNode [] ].

Definition TEXT_FINDER_XPATH : path := text_finder 20.

(** [build_text_finder] for the default [leading_xpath]; [None] is the default
    [min_str_length=False].  The override by a custom expression is left out. *)
Definition build_text_finder (min_str_length : option Z) : path :=
  match min_str_length with
  | None => TEXT_FINDER_XPATH
  | Some n => text_finder n
  end.

(** [.//text()] *)
Definition all_text_nodes : path :=
  [ Step Self AnyNode [];
    Step DescendantOrSelf AnyNode [];
    Step Child IsText [] ].

(** [''.join(n.xpath('.//text()'))] *)
Definition all_text (doc : document) (n : pos) : str :=
  List.concat (map (Dom.text_of doc) (xpath_from doc n all_text_nodes)).

(** ** The frequency distribution *)

(** [collections.Counter]: the keys in the order of their first insertion. *)
Module Counter.

Definition t := list (str * nat).

Fixpoint incr (k : str) (c : t) : t :=
  match c with
  | [] => [(k, 1)]
  | (k', n) :: c' =>
      if Str.eqb k k' then (k', S n) :: c' else (k', n) :: incr k c'
  end.

Definition of_list (l : list str) : t :=
  fold_left (fun c k => incr k c) l [].

(** Insertion into a list sorted by decreasing count, before the entries
    that do not count more. *)
Fixpoint insert (x : str * nat) (l : t) : t :=
  match l with
  | [] => [x]
  | y :: l' => if snd x <? snd y then y :: insert x l' else x :: l
  end.

(** [most_common()]: [sorted(items, key=itemgetter(1), reverse=True)], a
    stable sort: entries of equal count keep their order. *)
Definition most_common (c : t) : t := fold_right insert [] c.

End Counter.

(** [ '/'.join(p.split('/')[:-1]) ] *)
Definition parentpath (p : str) : str :=
  Str.join "/" (removelast (Str.split "/" p)).

Definition get_xpath_frequency_distribution (paths : list str) : Counter.t :=
  let splitpaths := map (Str.split "/") paths in
  let parentpaths := map (fun p => Str.join "/" (removelast p)) splitpaths in
  let parentpathsCounter := Counter.of_list parentpaths in
  Counter.most_common parentpathsCounter.

(** ** The extraction *)

Definition get_sentence_xpath_tuples (doc : document) (xpath_to_text : path)
  : list (str * str) :=
  let xpath_finder := Dom.getpath doc in
  let nodes_with_text := xpath doc xpath_to_text in
  flat_map (fun n => node_pairs (xpath_finder n) (all_text doc n))
           nodes_with_text.

Inductive exn := IndexError.

Inductive outcome (A : Type) :=
| Return (a : A)
| Raise (e : exn).
Arguments Return {A} a.
Arguments Raise {A} e.

Definition extract (doc : document) (min_str_length : option Z) : outcome str :=
  let xpath_to_text := build_text_finder min_str_length in
  let sent_xpath_pairs := get_sentence_xpath_tuples doc xpath_to_text in
  let xpaths := map snd sent_xpath_pairs in
  match get_xpath_frequency_distribution xpaths with
  | [] => Raise IndexError
  | max_path :: _ =>
      let article_text :=
        Str.join " "
          (map fst
             (filter (fun sx => Str.contains (fst max_path) (snd sx))
                     sent_xpath_pairs)) in
      Return (skipn 2 article_text)
  end.

(** ** Vocabulary of the statements *)

(** A character that ends a sentence: one of [sentence_ending]. *)
Definition terminal (c : ascii) : bool :=
  Chr.one_of ["."%char; Str.dquote; "?"%char; "!"%char; "'"%char] c.

(** A sentence: a text that is not empty and ends with a terminal character. *)
Definition sentence_like (s : str) : Prop :=
  exists s' c, s = s' ++ [c] /\ terminal c = true.

(** Pieces put back together with what was between them. *)
Fixpoint interleave (fs seps : list str) : str :=
  match fs, seps with
  | f :: fs', w :: seps' => f ++ w ++ interleave fs' seps'
  | f :: _, [] => f
  | [], _ => []
  end.

(** A run of white space: not empty, of [\s] characters only. *)
Definition space_run (w : str) : Prop :=
  w <> [] /\ forallb Chr.is_space w = true.

(** The paragraph break put before the first text of a list. *)
Definition mark_first (l : list str) : list str :=
  match l with
  | [] => []
  | s :: l' => (paragraph_break ++ s) :: l'
  end.

(** The characters of a match of [bracket_pattern]. *)
Definition bracket_char (c : ascii) : bool :=
  Ascii.eqb c "[" || Chr.is_digit c || Ascii.eqb c "]".

(** The state of the scan of [sentence_token_pattern]: either the piece
    being built is empty and stands at the start of the text or after white
    space, or its last character is the last character passed. *)
Definition scan_state (before cur : list ascii) (skip : nat) : Prop :=
  (cur = [] /\ match before with
               | [] => True
               | c :: _ => Chr.is_space c = true
               end)
  \/ (skip = 0 /\ exists c cur' r, cur = c :: cur' /\ before = c :: r).

(** Equality of strings is decidable. *)
Definition str_eq_dec : forall a b : str, {a = b} + {a <> b} :=
  list_eq_dec ascii_dec.

(** The number of occurrences of a path in a list. *)
Definition tally (k : str) (l : list str) : nat := count_occ str_eq_dec l k.

(** The index of the first occurrence of a path in a list, the length of the
    list when there is none. *)
Fixpoint index (k : str) (l : list str) : nat :=
  match l with
  | [] => 0
  | x :: l' => if Str.eqb k x then 0 else S (index k l')
  end.

(** The keys of a counter after one more key is counted. *)
Definition add_key (k : str) (ks : list str) : list str :=
  if existsb (Str.eqb k) ks then ks else ks ++ [k].

(** The distinct paths of a list, in the order of their first occurrence. *)
Definition keys (l : list str) : list str :=
  fold_left (fun ks k => add_key k ks) l [].

(** [precedes x y l]: some occurrence of [x] in [l] is before one of [y]. *)
Inductive precedes {A : Type} (x y : A) : list A -> Prop :=
| precedes_here l : In y l -> precedes x y (x :: l)
| precedes_later z l : precedes x y l -> precedes x y (z :: l).

(** The order of a ranking: the count does not increase. *)
Definition descending (a b : str * nat) : Prop := snd b <= snd a.

(** The tags that the query leaves out. *)
Definition wrappers : list str :=
  ["script" : str; "style" : str; "i" : str; "b" : str; "strong" : str;
   "span" : str; "a" : str].

Definition is_wrapper (tag : str) : bool := existsb (Str.eqb tag) wrappers.

(** A text node whose normalized length exceeds [n]. *)
Definition long_text (n : Z) (k : node) : bool :=
  match k with
  | Text s => (n <? Z.of_nat (List.length (normalize_space s)))%Z
  | Elem _ _ => false
  end.

(** [under_body doc p]: a node strictly above [p] is a [body] element. *)
Definition under_body (doc : document) (p : pos) : bool :=
  existsb
    (fun k =>
       match Dom.node_at doc (firstn k p) with
       | Some (Elem t _) => Str.eqb t "body"
       | _ => false
       end)
    (seq 0 (List.length p)).

(** A candidate: an element below a [body] element, whose tag is no wrapper
    and one of whose text children is long. *)
Definition is_candidate (doc : document) (n : Z) (p : pos) : bool :=
  match Dom.node_at doc p with
  | Some (Elem tag ks) =>
      negb (is_wrapper tag) && under_body doc p && existsb (long_text n) ks
  | _ => false
  end.


(** The number of the long text children of an element. *)
Definition long_texts (doc : document) (n : Z) (p : pos) : nat :=
  match Dom.node_at doc p with
  | Some (Elem _ ks) => List.length (filter (long_text n) ks)
  | _ => 0
  end.

(** The threshold that [min_str_length] sets. *)
Definition threshold (min_str_length : option Z) : Z :=
  match min_str_length with
  | None => 20%Z
  | Some n => n
  end.

Definition pos_eq_dec : forall p q : pos, {p = q} + {p <> q} :=
  list_eq_dec Nat.eq_dec.

(** [number] from an index on. *)
Definition number_from (k : nat) (subs : list (list pos)) : list pos :=
  flat_map (fun ip : nat * list pos => map (cons (fst ip)) (snd ip))
           (combine (seq k (List.length subs)) subs).

(** The pairs that [extract] keeps: those whose path holds the first parent
    of the ranking. *)
Definition kept_pairs (doc : document) (min_str_length : option Z)
  : list (str * str) :=
  let sent_xpath_pairs :=
    get_sentence_xpath_tuples doc (build_text_finder min_str_length) in
  match get_xpath_frequency_distribution (map snd sent_xpath_pairs) with
  | [] => []
  | max_path :: _ =>
      filter (fun sx => Str.contains (fst max_path) (snd sx)) sent_xpath_pairs
  end.

(** The direct text of an element as one string: its text children put
    together. *)
Definition direct_text (ks : list node) : str :=
  List.concat (map (fun k => match k with Text s => s | Elem _ _ => [] end) ks).

(** The selection by the whole direct text: an element whose tag is no wrapper
    and whose direct text, normalized, is longer than [n]. *)
Definition direct_text_candidate (doc : document) (n : Z) (p : pos) : bool :=
  match Dom.node_at doc p with
  | Some (Elem tag ks) =>
      negb (is_wrapper tag)
      && (n <? Z.of_nat (List.length (normalize_space (direct_text ks))))%Z
  | _ => false
  end.

(** Document order on positions: a node comes before the nodes under it, and
    the nodes under a child before the next children. *)
Fixpoint doc_before (p q : pos) : Prop :=
  match p, q with
  | [], _ :: _ => True
  | i :: p', j :: q' => i < j \/ (i = j /\ doc_before p' q')
  | _, [] => False
  end.

(** A piece that does not start with white space. *)
Definition starts_unspaced (f : str) : Prop :=
  match f with
  | c :: _ => Chr.is_space c = false
  | [] => True
  end.

(** A bracketed number: [[], digits, []]. *)
Definition is_marker (w : str) : Prop :=
  exists ds, w = "[" ++ ds ++ "]" /\ forallb Chr.is_digit ds = true.

(** All the text of a node: of a text node its text, of an element the text
    of its children, in order. *)
Fixpoint text_content (n : node) : str :=
  match n with
  | Text s => s
  | Elem _ ks => List.concat (map text_content ks)
  end.

(** The node at a position relative to a node. *)
Definition node_under (n : node) (r : pos) : option node :=
  match r with
  | [] => Some n
  | _ :: _ =>
      match n with
      | Elem _ ks => Dom.node_in ks r
      | Text _ => None
      end
  end.

Definition is_text_node (o : option node) : bool :=
  match o with
  | Some (Text _) => true
  | _ => false
  end.

Definition text_of_node (o : option node) : str :=
  match o with
  | Some (Text s) => s
  | _ => []
  end.

(** ** Sample documents *)

Definition html_body (ks : list node) : document :=
  Elem "html" [Elem "head" [Elem "title" [Text "A page"]]; Elem "body" ks].

(** Three paragraphs in one [div], one paragraph in another. *)
Definition doc_two_divs : document :=
  html_body
    [ Elem "div"
        [ Elem "p" [Text "The first paragraph says this."];
          Elem "p" [Text "The second paragraph says that."];
          Elem "p" [Text "The third paragraph ends it. It has two sentences."] ];
      Elem "div" [ Elem "p" [Text "An unrelated line of the footer."] ] ].

(** A paragraph with two marked-up sentences, then a [pre]. *)
Definition doc_pre : document :=
  html_body
    [ Elem "p"
        [ Elem "em" [Text "The first sentence of the article."];
          Elem "u" [Text "The second sentence of the article."] ];
      Elem "pre" [Text "Unrelated text outside of the article."] ].

(** A long text that no sentence ends. *)
Definition doc_no_stop : document :=
  html_body [ Elem "div" [ Elem "p" [Text "a long line of text that goes on without any end"] ] ].

(** Two short texts around a line break. *)
Definition doc_split_text : document :=
  html_body
    [ Elem "div"
        [ Elem "p" [Text "Short text one. "; Elem "br" []; Text "Short text two."] ] ].

(** Two long texts around a line break. *)
Definition doc_two_texts : document :=
  html_body
    [ Elem "div"
        [ Elem "p" [Text "The first long sentence is here. And one more. ";
                    Elem "br" [];
                    Text "The second long text of it is here."] ] ].

(** A long title in the head, a short text in the body. *)
Definition doc_long_title : document :=
  Elem "html"
    [ Elem "head" [Elem "title" [Text "A title of more than twenty characters"]];
      Elem "body" [Elem "p" [Text "Too short."]] ].


(** * Properties *)

(** ** Strings *)

Module StrFacts.

Lemma startswith_app (p s : str) : Str.startswith (p ++ s) p = true.
Proof.
  induction p as [|c p IH]; simpl; [reflexivity|].
  now rewrite Ascii.eqb_refl, IH.
Qed.


Lemma contains_startswith (p s : str) :
  Str.startswith s p = true -> Str.contains p s = true.
Proof. intros H; destruct s; simpl in *; now rewrite H. Qed.

Lemma endswith_any_terminal (s : str) :
  Str.endswith_any s sentence_ending
  = match rev s with c :: _ => terminal c | [] => false end.
Proof.
  unfold Str.endswith_any, sentence_ending, Str.endswith, terminal, Chr.one_of.
  destruct (rev s) as [|c r]; simpl; [reflexivity|].
  now rewrite !andb_true_r.
Qed.

Lemma endswith_any_iff (s : str) :
  Str.endswith_any s sentence_ending = true <-> sentence_like s.
Proof.
  rewrite endswith_any_terminal. split.
  - destruct (rev s) as [|c r] eqn:E; [discriminate|]; intros H.
    exists (rev r), c; split; [|exact H].
    rewrite <- (rev_involutive s), E. reflexivity.
  - intros (s' & c & -> & H). now rewrite rev_app_distr.
Qed.

Lemma sentence_like_nonempty (s : str) : sentence_like s -> s <> [].
Proof. intros (s' & c & -> & _); now destruct s'. Qed.

End StrFacts.

(** ** The scans of a pattern whose matches are made of characters of one
    class *)

Section Scan.

Variable m : Re.pattern.
Variable P : ascii -> bool.

Hypothesis m_sound :
  forall before s n,
    m before s = Some n ->
    n <= List.length s /\ forallb P (firstn n s) = true.

Lemma split_go_nonnil before cur skip s :
  Re.split_go m before cur skip s <> [].
Proof.
  revert before cur skip; induction s as [|c rest IH]; intros; simpl.
  - discriminate.
  - destruct skip; [|apply IH].
    destruct (m before (c :: rest)) as [[|k]|]; try apply IH; discriminate.
Qed.

Lemma split_go_interleave s :
  forall before cur skip,
    skip <= List.length s ->
    forallb P (firstn skip s) = true ->
    exists seps,
      List.length (Re.split_go m before cur skip s) = S (List.length seps)
      /\ Forall (fun w => w <> [] /\ forallb P w = true) seps
      /\ rev cur ++ skipn skip s
         = interleave (Re.split_go m before cur skip s) seps.
Proof.
  induction s as [|c rest IH]; intros before cur skip Hle Hsk.
  - simpl in Hle. assert (skip = 0) by lia; subst.
    exists []; simpl. rewrite app_nil_r. auto.
  - destruct skip as [|k].
    + simpl Re.split_go. destruct (m before (c :: rest)) as [[|k]|] eqn:Hm.
      * destruct (IH (c :: before) (c :: cur) 0) as (seps & Hl & Hf & He);
          [simpl; lia|reflexivity|].
        exists seps; repeat split; auto.
        simpl in He |- *. now rewrite <- He, <- app_assoc.
      * destruct (m_sound _ _ _ Hm) as [Hn Hp].
        simpl in Hn, Hp. apply andb_true_iff in Hp as [Hc Hp].
        destruct (IH (c :: before) [] k) as (seps & Hl & Hf & He);
          [lia|exact Hp|].
        exists ((c :: firstn k rest) :: seps); repeat split.
        -- simpl. now rewrite Hl.
        -- constructor; [|exact Hf]. split; [discriminate|].
           simpl. now rewrite Hc, Hp.
        -- simpl in He |- *. rewrite <- He.
           now rewrite firstn_skipn.
      * destruct (IH (c :: before) (c :: cur) 0) as (seps & Hl & Hf & He);
          [simpl; lia|reflexivity|].
        exists seps; repeat split; auto.
        simpl in He |- *. now rewrite <- He, <- app_assoc.
    + simpl in Hle, Hsk. apply andb_true_iff in Hsk as [_ Hsk].
      destruct (IH (c :: before) cur k) as (seps & Hl & Hf & He);
        [lia|exact Hsk|].
      exists seps; repeat split; auto.
Qed.

(** A last character outside of the class ends the last piece. *)
Lemma split_go_last c s :
  P c = false ->
  forall before cur skip,
    skip <= List.length s ->
    forallb P (firstn skip (s ++ [c])) = true ->
    exists f, last (Re.split_go m before cur skip (s ++ [c])) [] = f ++ [c].
Proof.
  intros Hc; induction s as [|x rest IH]; intros before cur skip Hle Hsk.
  - simpl in Hle. assert (skip = 0) by lia; subst. simpl.
    destruct (m before [c]) as [[|k]|] eqn:Hm.
    + exists (rev cur). reflexivity.
    + destruct (m_sound _ _ _ Hm) as [_ Hp]. simpl in Hp.
      rewrite Hc in Hp. discriminate.
    + exists (rev cur). reflexivity.
  - destruct skip as [|k].
    + simpl app. simpl Re.split_go.
      destruct (m before (x :: rest ++ [c])) as [[|k]|] eqn:Hm.
      * apply IH; [simpl; lia|reflexivity].
      * destruct (m_sound _ _ _ Hm) as [Hn Hp].
        simpl in Hn, Hp. apply andb_true_iff in Hp as [Hx Hp].
        assert (Hk : k <= List.length rest).
        { rewrite length_app in Hn. simpl in Hn.
          destruct (Nat.eq_dec k (S (List.length rest))) as [->|]; [|lia].
          exfalso. rewrite firstn_all2 in Hp
            by (rewrite length_app; simpl; lia).
          rewrite forallb_app in Hp. simpl in Hp.
          rewrite Hc in Hp. simpl in Hp.
          now rewrite andb_false_r in Hp. }
        destruct (IH (x :: before) [] k Hk Hp) as [f Hf].
        exists f. rewrite <- Hf.
        change (last (rev cur :: Re.split_go m (x :: before) [] k (rest ++ [c])) []
                = last (Re.split_go m (x :: before) [] k (rest ++ [c])) []).
        destruct (Re.split_go m (x :: before) [] k (rest ++ [c])) eqn:E;
          [now apply split_go_nonnil in E|reflexivity].
      * apply IH; [simpl; lia|reflexivity].
    + simpl in Hle, Hsk |- *. apply andb_true_iff in Hsk as [_ Hsk].
      apply IH; [lia|exact Hsk].
Qed.

Lemma sub_go_last c s :
  P c = false ->
  forall before skip,
    skip <= List.length s ->
    forallb P (firstn skip (s ++ [c])) = true ->
    exists r, Re.sub_go m before skip (s ++ [c]) = r ++ [c].
Proof.
  intros Hc; induction s as [|x rest IH]; intros before skip Hle Hsk.
  - simpl in Hle. assert (skip = 0) by lia; subst. simpl.
    destruct (m before [c]) as [[|k]|] eqn:Hm.
    + now exists [].
    + destruct (m_sound _ _ _ Hm) as [_ Hp]. simpl in Hp.
      rewrite Hc in Hp. discriminate.
    + now exists [].
  - destruct skip as [|k].
    + simpl app. simpl Re.sub_go.
      destruct (m before (x :: rest ++ [c])) as [[|k]|] eqn:Hm.
      * destruct (IH (x :: before) 0) as [r Hr]; [simpl; lia|reflexivity|].
        exists (x :: r). now rewrite Hr.
      * destruct (m_sound _ _ _ Hm) as [Hn Hp].
        simpl in Hn, Hp. apply andb_true_iff in Hp as [Hx Hp].
        assert (Hk : k <= List.length rest).
        { rewrite length_app in Hn. simpl in Hn.
          destruct (Nat.eq_dec k (S (List.length rest))) as [->|]; [|lia].
          exfalso. rewrite firstn_all2 in Hp
            by (rewrite length_app; simpl; lia).
          rewrite forallb_app in Hp. simpl in Hp.
          rewrite Hc in Hp. simpl in Hp.
          now rewrite andb_false_r in Hp. }
        apply IH; assumption.
      * destruct (IH (x :: before) 0) as [r Hr]; [simpl; lia|reflexivity|].
        exists (x :: r). now rewrite Hr.
    + simpl in Hle, Hsk |- *. apply andb_true_iff in Hsk as [_ Hsk].
      apply IH; [lia|exact Hsk].
Qed.

End Scan.

(** ** The two patterns *)

Module PatternFacts.

Lemma span_le P s : Re.span P s <= List.length s.
Proof. induction s as [|c s IH]; simpl; [lia|]. destruct (P c); simpl; lia. Qed.

Lemma span_forallb P s : forallb P (firstn (Re.span P s) s) = true.
Proof.
  induction s as [|c s IH]; simpl; [reflexivity|].
  destruct (P c) eqn:E; simpl; [now rewrite E|reflexivity].
Qed.

Lemma one_of_In cs c : Chr.one_of cs c = true -> In c cs.
Proof.
  unfold Chr.one_of. rewrite existsb_exists.
  intros (x & Hx & E). apply Ascii.eqb_eq in E. now subst.
Qed.

Lemma bracket_sound before s n :
  bracket_pattern before s = Some n ->
  n <= List.length s /\ forallb bracket_char (firstn n s) = true.
Proof.
  unfold bracket_pattern. destruct s as [|c s]; [discriminate|].
  destruct (Ascii.eqb c "[") eqn:Ec; [|discriminate].
  set (d := Re.span Chr.is_digit s).
  destruct (skipn d s) as [|c' r] eqn:Es; [discriminate|].
  destruct (Ascii.eqb c' "]") eqn:Ec'; [|discriminate].
  intros [= <-].
  assert (Hs : s = firstn d s ++ c' :: r)
    by (now rewrite <- Es, firstn_skipn).
  assert (Hd : List.length (firstn d s) = d)
    by (apply firstn_length_le, span_le).
  split.
  - simpl. rewrite Hs, length_app, Hd. simpl. lia.
  - replace (d + 2) with (S (d + 1)) by lia. simpl firstn. simpl forallb.
    unfold bracket_char at 1. rewrite Ec. simpl.
    rewrite Hs at 1. rewrite firstn_app, Hd.
    replace (d + 1 - d) with 1 by lia.
    rewrite firstn_all2 by (rewrite Hd; lia).
    simpl. rewrite forallb_app. simpl.
    unfold bracket_char at 2. rewrite Ec', orb_true_r. simpl.
    rewrite andb_true_r.
    pose proof (span_forallb Chr.is_digit s) as Hf. fold d in Hf.
    rewrite forallb_forall in Hf |- *. intros x Hx.
    unfold bracket_char. now rewrite (Hf x Hx), orb_true_r.
Qed.

Lemma sentence_token_some before s n :
  sentence_token_pattern before s = Some n ->
  n = Re.span Chr.is_space s /\ n <> 0
  /\ (Re.behind_class ".!?" before
      || Re.behind_class2 ".!?" [Str.dquote; "'"%char] before) = true.
Proof.
  unfold sentence_token_pattern.
  destruct (Re.behind_class ".!?" before
            || Re.behind_class2 ".!?" [Str.dquote; "'"%char] before);
    cbn [andb]; [|discriminate].
  match goal with
  | |- (if ?b then _ else _) = _ -> _ => destruct b; [|discriminate]
  end.
  destruct (Re.span Chr.is_space s); [discriminate|].
  intros [= <-]. auto.
Qed.

Lemma sentence_token_sound before s n :
  sentence_token_pattern before s = Some n ->
  n <= List.length s /\ forallb Chr.is_space (firstn n s) = true.
Proof.
  intros H. apply sentence_token_some in H as (-> & _ & _).
  split; [apply span_le|apply span_forallb].
Qed.

(** What stands before a match ends a sentence. *)
Lemma behind_terminal x r :
  (Re.behind_class ".!?" (x :: r)
   || Re.behind_class2 ".!?" [Str.dquote; "'"%char] (x :: r)) = true ->
  terminal x = true.
Proof.
  intros H. apply orb_true_iff in H as [H|H].
  - unfold Re.behind_class in H. apply one_of_In in H. simpl in H.
    destruct H as [<-|[<-|[<-|[]]]]; reflexivity.
  - unfold Re.behind_class2 in H. destruct r as [|y r]; [discriminate|].
    apply andb_true_iff in H as [H _]. apply one_of_In in H.
    destruct H as [<-|[<-|[]]]; reflexivity.
Qed.

Lemma terminal_not_space x : terminal x = true -> Chr.is_space x = false.
Proof.
  intros H. apply one_of_In in H.
  destruct H as [<-|[<-|[<-|[<-|[<-|[]]]]]]; reflexivity.
Qed.

Lemma split_go_sentence_like s :
  forall before cur skip,
    skip <= List.length s ->
    forallb Chr.is_space (firstn skip s) = true ->
    scan_state before cur skip ->
    Forall sentence_like
           (removelast (Re.split_go sentence_token_pattern before cur skip s)).
Proof.
  induction s as [|c rest IH]; intros before cur skip Hle Hsk Hst.
  - simpl. constructor.
  - destruct skip as [|k].
    + simpl Re.split_go.
      destruct (sentence_token_pattern before (c :: rest)) as [[|k]|] eqn:Hm.
      * apply IH; [simpl; lia|reflexivity|].
        right; split; [reflexivity|]. now exists c, cur, before.
      * pose proof (sentence_token_sound _ _ _ Hm) as [Hn Hp].
        apply sentence_token_some in Hm as (_ & _ & Hb).
        simpl in Hn, Hp. apply andb_true_iff in Hp as [Hc Hp].
        pose proof (split_go_nonnil sentence_token_pattern
                      (c :: before) [] k rest) as Hne.
        destruct (Re.split_go sentence_token_pattern (c :: before) [] k rest)
          as [|f fs] eqn:E; [congruence|].
        change (Forall sentence_like (rev cur :: removelast (f :: fs))).
        constructor.
        -- destruct Hst as [[-> Hf]|(_ & x & cur' & r & -> & ->)].
           ++ destruct before as [|x r]; [discriminate|].
              apply behind_terminal, terminal_not_space in Hb. congruence.
           ++ apply behind_terminal in Hb.
              exists (rev cur'), x. now split.
        -- rewrite <- E. apply IH; [lia|exact Hp|].
           left. now split.
      * apply IH; [simpl; lia|reflexivity|].
        right; split; [reflexivity|]. now exists c, cur, before.
    + simpl in Hle, Hsk |- *. apply andb_true_iff in Hsk as [Hc Hsk].
      apply IH; [lia|exact Hsk|].
      destruct Hst as [[-> _]|[? _]]; [|discriminate].
      left. now split.
Qed.

(** Every piece but the last one is a sentence. *)
Lemma pieces_sentence_like text :
  Forall sentence_like (removelast (pieces text)).
Proof.
  apply split_go_sentence_like; [lia|reflexivity|].
  left. now split.
Qed.

Lemma pieces_nonnil text : pieces text <> [].
Proof. apply split_go_nonnil. Qed.




Lemma filter_all {A} (f : A -> bool) l :
  Forall (fun x => f x = true) l -> filter f l = l.
Proof.
  induction 1 as [|x l Hx _ IH]; simpl; [reflexivity|].
  now rewrite Hx, IH.
Qed.


End PatternFacts.

(** ** The pairs of one node *)

Module PairFacts.

Import PatternFacts.

Lemma later_pairs (xp : str) fs :
  forall k,
    1 <= k ->
    flat_map
      (fun es : nat * str =>
         let (e, s) := es in
         if Str.endswith_any s sentence_ending
         then [(if e =? 0 then paragraph_break ++ s else s, xp)]
         else [])
      (combine (seq k (List.length fs)) fs)
    = map (fun s => (s, xp))
          (filter (fun s => Str.endswith_any s sentence_ending) fs).
Proof.
  induction fs as [|f fs IH]; intros k Hk; [reflexivity|].
  cbn [List.length seq combine flat_map filter].
  rewrite (IH (S k)) by lia.
  destruct (Str.endswith_any f sentence_ending); [|reflexivity].
  destruct k; [lia|reflexivity].
Qed.

(** The pairs of a node are its sentences, the first one after a paragraph
    break, each with the path of the node. *)
Lemma node_pairs_mark_first (xp text : str) :
  node_pairs xp text = map (fun s => (s, xp)) (mark_first (sentences text)).
Proof.
  unfold node_pairs, sentences, enumerate.
  pose proof (pieces_sentence_like text) as Hf.
  destruct (pieces text) as [|f fs]; [reflexivity|].
  cbn [List.length seq combine flat_map filter].
  rewrite later_pairs by lia.
  destruct (Str.endswith_any f sentence_ending) eqn:Ef; [reflexivity|].
  destruct fs as [|g fs]; [reflexivity|].
  exfalso. change (removelast (f :: g :: fs)) with (f :: removelast (g :: fs)) in Hf.
  inversion Hf as [|? ? Hs _]; subst.
  apply StrFacts.endswith_any_iff in Hs. congruence.
Qed.

Lemma sentences_sentence_like text : Forall sentence_like (sentences text).
Proof.
  unfold sentences. apply Forall_forall. intros s Hs.
  apply filter_In in Hs as [_ Hs]. now apply StrFacts.endswith_any_iff.
Qed.

Lemma tuples_blocks doc xp :
  get_sentence_xpath_tuples doc xp
  = flat_map
      (fun n => map (fun s => (s, Dom.getpath doc n))
                    (mark_first (sentences (all_text doc n))))
      (xpath doc xp).
Proof.
  unfold get_sentence_xpath_tuples. apply flat_map_ext.
  intros n. apply node_pairs_mark_first.
Qed.

Lemma join_mark (s : str) l :
  Str.join " " ((paragraph_break ++ s) :: l)
  = paragraph_break ++ Str.join " " (s :: l).
Proof. destruct l; simpl; reflexivity. Qed.

(** What is kept of blocks by a test on the path: when something is kept,
    it starts with the first pair of a block. *)
Lemma kept_blocks (addr : pos -> str) (text : pos -> str) (g : str -> bool)
      (nodes : list pos) :
  let kept :=
    filter (fun sx : str * str => g (snd sx))
      (flat_map (fun n => map (fun s => (s, addr n))
                              (mark_first (sentences (text n)))) nodes) in
  kept = [] \/
  exists s x rest,
    kept = (paragraph_break ++ s, x) :: rest /\ sentence_like s.
Proof.
  induction nodes as [|n nodes IH]; simpl; [now left|].
  rewrite filter_app.
  pose proof (sentences_sentence_like (text n)) as Hs.
  destruct (sentences (text n)) as [|s ss]; simpl; [exact IH|].
  destruct (g (addr n)) eqn:Eg.
  - right. eexists _, _, _. split; [reflexivity|].
    now inversion Hs.
  - replace (filter _ (map _ ss)) with (@nil (str * str)); [exact IH|].
    symmetry. clear -Eg. induction ss; simpl; [reflexivity|].
    now rewrite Eg.
Qed.

End PairFacts.

(** ** Paths as strings *)

Module PathFacts.

Lemma str_eqb_eq (a b : str) : Str.eqb a b = true <-> a = b.
Proof.
  revert b; induction a as [|x a IH]; intros [|y b]; simpl;
    try (split; [discriminate|discriminate]); [tauto|].
  rewrite andb_true_iff, Ascii.eqb_eq, IH.
  split; [intros [-> ->]; reflexivity|intros [= -> ->]; auto].
Qed.

Lemma str_eqb_refl (a : str) : Str.eqb a a = true.
Proof. now apply str_eqb_eq. Qed.

Lemma str_eqb_neq (a b : str) : Str.eqb a b = false <-> a <> b.
Proof.
  rewrite <- str_eqb_eq. destruct (Str.eqb a b); split; congruence.
Qed.

Lemma split_nonnil sep s : Str.split sep s <> [].
Proof.
  destruct s as [|c s]; simpl; [discriminate|].
  destruct (Ascii.eqb c sep); [discriminate|].
  destruct (Str.split sep s); discriminate.
Qed.

Lemma join_cons_char sep c h t :
  Str.join sep ((c :: h) :: t) = c :: Str.join sep (h :: t).
Proof. destruct t; reflexivity. Qed.

Lemma join_split sep s : Str.join [sep] (Str.split sep s) = s.
Proof.
  induction s as [|c s IH]; [reflexivity|].
  simpl Str.split. destruct (Ascii.eqb c sep) eqn:E.
  - apply Ascii.eqb_eq in E; subst c.
    pose proof (split_nonnil sep s) as Hne.
    destruct (Str.split sep s) as [|h t]; [congruence|].
    change (Str.join [sep] ([] :: h :: t))
      with (sep :: Str.join [sep] (h :: t)).
    now rewrite IH.
  - pose proof (split_nonnil sep s) as Hne.
    destruct (Str.split sep s) as [|h t]; [congruence|].
    now rewrite join_cons_char, IH.
Qed.

Lemma join_snoc sep l y :
  l <> [] -> Str.join sep (l ++ [y]) = Str.join sep l ++ sep ++ y.
Proof.
  induction l as [|x l IH]; [congruence|]. intros _.
  destruct l as [|x' l]; [reflexivity|].
  change (Str.join sep ((x :: x' :: l) ++ [y]))
    with (x ++ sep ++ Str.join sep ((x' :: l) ++ [y])).
  rewrite IH by discriminate.
  change (Str.join sep (x :: x' :: l))
    with (x ++ sep ++ Str.join sep (x' :: l)).
  now rewrite <- !app_assoc.
Qed.

Lemma join_removelast sep l :
  exists r, Str.join sep l = Str.join sep (removelast l) ++ r.
Proof.
  destruct l as [|x l] using rev_ind.
  - now exists [].
  - rewrite removelast_last. destruct l as [|x' l].
    + now exists x.
    + exists (sep ++ x). now apply join_snoc.
Qed.

(** The parent path starts the path. *)
Lemma parentpath_prefix x : Str.startswith x (parentpath x) = true.
Proof.
  unfold parentpath.
  destruct (join_removelast ["/"%char] (Str.split "/" x)) as [r Hr].
  rewrite join_split in Hr. rewrite Hr at 1.
  apply StrFacts.startswith_app.
Qed.

Lemma parentpath_contains x : Str.contains (parentpath x) x = true.
Proof. apply StrFacts.contains_startswith, parentpath_prefix. Qed.

Lemma split_app_sep sep a b :
  Str.split sep (a ++ sep :: b) = Str.split sep a ++ Str.split sep b.
Proof.
  induction a as [|c a IH]; simpl.
  - now rewrite Ascii.eqb_refl.
  - rewrite IH. destruct (Ascii.eqb c sep); [reflexivity|].
    pose proof (split_nonnil sep a) as Hne.
    destruct (Str.split sep a); [congruence|reflexivity].
Qed.

Lemma split_plain sep b : ~ In sep b -> Str.split sep b = [b].
Proof.
  induction b as [|c b IH]; intros H; simpl; [reflexivity|].
  destruct (Ascii.eqb c sep) eqn:E.
  - apply Ascii.eqb_eq in E. subst. exfalso. apply H. now left.
  - rewrite IH; [reflexivity|]. intros Hin. apply H. now right.
Qed.

(** The parent path is the path without its last step. *)
Lemma parentpath_step (p step : str) :
  ~ In "/"%char step -> parentpath (p ++ "/" ++ step) = p.
Proof.
  intros H. unfold parentpath.
  change (p ++ "/" ++ step) with (p ++ "/"%char :: step).
  rewrite split_app_sep, (split_plain _ _ H), removelast_last.
  apply join_split.
Qed.

End PathFacts.

(** ** The counter and its ranking *)

Module CounterFacts.

Import PathFacts.

Lemma existsb_eqb_In k ks : existsb (Str.eqb k) ks = true <-> In k ks.
Proof.
  rewrite existsb_exists. split.
  - intros (x & Hx & E). apply str_eqb_eq in E. now subst.
  - intros H. exists k. split; [exact H|apply str_eqb_refl].
Qed.

Lemma tally_snoc x l k :
  tally x (l ++ [k]) = if Str.eqb x k then S (tally x l) else tally x l.
Proof.
  unfold tally. rewrite count_occ_app. simpl.
  destruct (str_eq_dec k x) as [->|Hn].
  - rewrite str_eqb_refl. lia.
  - destruct (Str.eqb x k) eqn:E; [|lia].
    apply str_eqb_eq in E. congruence.
Qed.

Lemma tally_In x l : In x l <-> 0 < tally x l.
Proof. unfold tally. apply count_occ_In. Qed.

Lemma incr_absent k (g : str -> nat) ks :
  ~ In k ks ->
  Counter.incr k (map (fun x => (x, g x)) ks)
  = map (fun x => (x, g x)) ks ++ [(k, 1)].
Proof.
  induction ks as [|x ks IH]; intros H; simpl; [reflexivity|].
  destruct (Str.eqb k x) eqn:E.
  - apply str_eqb_eq in E. subst. exfalso. apply H. now left.
  - rewrite IH; [reflexivity|]. intros Hin. apply H. now right.
Qed.

Lemma incr_present k (g : str -> nat) ks :
  In k ks -> NoDup ks ->
  Counter.incr k (map (fun x => (x, g x)) ks)
  = map (fun x => (x, if Str.eqb x k then S (g x) else g x)) ks.
Proof.
  induction ks as [|x ks IH]; intros Hin Hnd; [destruct Hin|].
  inversion Hnd as [|? ? Hx Hnd']; subst. simpl.
  destruct (Str.eqb k x) eqn:E.
  - apply str_eqb_eq in E. subst x. rewrite str_eqb_refl.
    f_equal. apply map_ext_in. intros y Hy.
    destruct (Str.eqb y k) eqn:E'; [|reflexivity].
    apply str_eqb_eq in E'. subst. contradiction.
  - destruct (Str.eqb x k) eqn:E'.
    + apply str_eqb_eq in E'. subst. now rewrite str_eqb_refl in E.
    + rewrite IH; [reflexivity| |assumption].
      destruct Hin as [->|]; [|assumption].
      now rewrite str_eqb_refl in E.
Qed.

Lemma keys_snoc l k : keys (l ++ [k]) = add_key k (keys l).
Proof. unfold keys. now rewrite fold_left_app. Qed.

Lemma of_list_snoc l k :
  Counter.of_list (l ++ [k]) = Counter.incr k (Counter.of_list l).
Proof. unfold Counter.of_list. now rewrite fold_left_app. Qed.

(** The counter of a list: its distinct paths in the order of their first
    occurrence, each with the number of its occurrences. *)
Lemma of_list_keys l :
  Counter.of_list l = map (fun x => (x, tally x l)) (keys l)
  /\ NoDup (keys l)
  /\ (forall x, In x (keys l) <-> In x l).
Proof.
  induction l as [|k l (IHc & IHn & IHi)] using rev_ind.
  - repeat split; try constructor; auto.
  - rewrite of_list_snoc, keys_snoc, IHc. unfold add_key.
    destruct (existsb (Str.eqb k) (keys l)) eqn:E.
    + apply existsb_eqb_In in E. repeat split; auto.
      * rewrite incr_present by assumption.
        apply map_ext. intros x. now rewrite tally_snoc.
      * intros H. apply in_or_app. left. now apply IHi.
      * intros H. apply in_app_or in H as [H|[<-|[]]]; [now apply IHi|exact E].
    + assert (Hk : ~ In k (keys l)).
      { intros H. apply existsb_eqb_In in H. congruence. }
      repeat split.
      * rewrite incr_absent by assumption. rewrite map_app. f_equal.
        -- apply map_ext_in. intros x Hx. rewrite tally_snoc.
           destruct (Str.eqb x k) eqn:E'; [|reflexivity].
           apply str_eqb_eq in E'. subst. contradiction.
        -- simpl. rewrite tally_snoc, str_eqb_refl. do 3 f_equal.
           destruct (tally k l) eqn:Et; [reflexivity|].
           exfalso. apply Hk, IHi, tally_In. lia.
      * apply NoDup_app; [assumption|repeat constructor; auto|].
        intros a Ha [<-|[]]. contradiction.
      * intros H. apply in_app_or in H as [H|H]; apply in_or_app;
          [left; now apply IHi|now right].
      * intros H. apply in_app_or in H as [H|H]; apply in_or_app;
          [left; now apply IHi|now right].
Qed.

Lemma index_app a l1 l2 :
  index a (l1 ++ l2)
  = if existsb (Str.eqb a) l1 then index a l1
    else List.length l1 + index a l2.
Proof.
  induction l1 as [|x l1 IH]; simpl; [reflexivity|].
  destruct (Str.eqb a x); simpl; [reflexivity|].
  rewrite IH. now destruct (existsb (Str.eqb a) l1).
Qed.

Lemma index_lt a l : In a l -> index a l < List.length l.
Proof.
  induction l as [|x l IH]; intros H; [destruct H|]. simpl.
  destruct (Str.eqb a x) eqn:E; [lia|].
  destruct H as [->|H]; [now rewrite str_eqb_refl in E|].
  apply IH in H. lia.
Qed.

Lemma index_app_In a l1 l2 : In a l1 -> index a (l1 ++ l2) = index a l1.
Proof.
  intros H. rewrite index_app.
  apply existsb_eqb_In in H. now rewrite H.
Qed.

Lemma index_app_notin a l1 l2 :
  ~ In a l1 -> index a (l1 ++ l2) = List.length l1 + index a l2.
Proof.
  intros H. rewrite index_app.
  destruct (existsb (Str.eqb a) l1) eqn:E; [|reflexivity].
  now apply existsb_eqb_In in E.
Qed.

(** The keys are in the order of the first occurrences. *)
Lemma keys_order l a b :
  In a l -> In b l -> index a l < index b l ->
  index a (keys l) < index b (keys l).
Proof.
  induction l as [|k l IH] using rev_ind; intros Ha Hb Hlt; [destruct Ha|].
  destruct (of_list_keys l) as (_ & Hnd & Hin).
  rewrite keys_snoc. unfold add_key.
  destruct (existsb (Str.eqb k) (keys l)) eqn:E.
  - apply existsb_eqb_In, Hin in E.
    assert (Ha' : In a l) by (apply in_app_or in Ha as [|[<-|[]]]; auto).
    assert (Hb' : In b l) by (apply in_app_or in Hb as [|[<-|[]]]; auto).
    rewrite !index_app_In in Hlt by assumption. now apply IH.
  - assert (Hk : ~ In k l).
    { intros H. apply Hin, existsb_eqb_In in H. congruence. }
    destruct (in_dec str_eq_dec a l) as [Ha'|Ha'];
      destruct (in_dec str_eq_dec b l) as [Hb'|Hb'].
    + rewrite !index_app_In in Hlt by assumption.
      rewrite !index_app_In by (now apply Hin). now apply IH.
    + assert (b = k) by (apply in_app_or in Hb as [|[<-|[]]]; tauto).
      subst b. rewrite index_app_In by (now apply Hin).
      rewrite index_app_notin by (now rewrite Hin).
      apply Hin, index_lt in Ha'. lia.
    + assert (a = k) by (apply in_app_or in Ha as [|[<-|[]]]; tauto).
      subst a. rewrite index_app_notin in Hlt by assumption.
      rewrite index_app_In in Hlt by assumption.
      apply index_lt in Hb'. lia.
    + assert (a = k) by (apply in_app_or in Ha as [|[<-|[]]]; tauto).
      assert (b = k) by (apply in_app_or in Hb as [|[<-|[]]]; tauto).
      subst. lia.
Qed.

End CounterFacts.

Module RankingFacts.

Import PathFacts CounterFacts.

Lemma insert_perm x l : Permutation (x :: l) (Counter.insert x l).
Proof.
  induction l as [|y l IH]; simpl; [reflexivity|].
  destruct (snd x <? snd y); [|reflexivity].
  rewrite perm_swap. now constructor.
Qed.

Lemma most_common_perm c : Permutation c (Counter.most_common c).
Proof.
  induction c as [|x c IH]; simpl; [constructor|].
  rewrite <- insert_perm. now constructor.
Qed.

Lemma insert_sorted x l :
  StronglySorted descending l -> StronglySorted descending (Counter.insert x l).
Proof.
  induction 1 as [|y l Hs IH Hy]; simpl; [repeat constructor|].
  destruct (snd x <? snd y) eqn:E.
  - apply Nat.ltb_lt in E. constructor; [exact IH|].
    apply (Permutation_Forall (insert_perm x l)).
    constructor; [unfold descending; lia|exact Hy].
  - apply Nat.ltb_ge in E. constructor; [now constructor|].
    constructor; [exact E|].
    eapply Forall_impl; [|exact Hy]. unfold descending. intros; lia.
Qed.

Lemma most_common_sorted c : StronglySorted descending (Counter.most_common c).
Proof.
  induction c as [|x c IH]; simpl; [constructor|now apply insert_sorted].
Qed.

Lemma precedes_In_l {A} (x y : A) l : precedes x y l -> In x l.
Proof. induction 1; [now left|now right]. Qed.

Lemma precedes_In_r {A} (x y : A) l : precedes x y l -> In y l.
Proof. induction 1; now right. Qed.

Lemma insert_precedes_old x y z l :
  precedes x y l -> precedes x y (Counter.insert z l).
Proof.
  induction 1 as [l Hy|w l Hp IH]; simpl.
  - destruct (snd z <? snd x).
    + constructor. apply (Permutation_in _ (insert_perm z l)). now right.
    + now do 2 constructor.
  - destruct (snd z <? snd w); constructor; [exact IH|now constructor].
Qed.

Lemma insert_precedes_new z y l :
  In y l -> snd y <= snd z -> precedes z y (Counter.insert z l).
Proof.
  induction l as [|w l IH]; intros Hy Hle; [destruct Hy|]. simpl.
  destruct (snd z <? snd w) eqn:E.
  - apply Nat.ltb_lt in E. constructor.
    destruct Hy as [->|Hy]; [lia|]. now apply IH.
  - now constructor.
Qed.

(** The sort is stable: what stood before an entry that counts no more
    still stands before it. *)
Lemma most_common_stable x y c :
  precedes x y c -> snd y <= snd x -> precedes x y (Counter.most_common c).
Proof.
  induction 1 as [l Hy|w l Hp IH]; intros Hle; simpl.
  - apply insert_precedes_new; [|exact Hle].
    now apply (Permutation_in _ (most_common_perm l)).
  - now apply insert_precedes_old, IH.
Qed.

Lemma index_precedes (g : str -> nat) a b ks :
  In b ks -> index a ks < index b ks ->
  precedes (a, g a) (b, g b) (map (fun x => (x, g x)) ks).
Proof.
  induction ks as [|x ks IH]; intros Hb Hlt; [destruct Hb|].
  simpl in Hlt |- *.
  destruct (Str.eqb b x) eqn:Eb; [destruct (Str.eqb a x); lia|].
  destruct Hb as [->|Hb]; [now rewrite str_eqb_refl in Eb|].
  destruct (Str.eqb a x) eqn:Ea.
  - apply str_eqb_eq in Ea. subst x. constructor.
    now apply (in_map (fun x => (x, g x))).
  - constructor. apply IH; [exact Hb|lia].
Qed.

Lemma precedes_index (x y : str * nat) l :
  precedes x y l -> NoDup (map fst l) ->
  index (fst x) (map fst l) < index (fst y) (map fst l).
Proof.
  induction 1 as [l Hy|w l Hp IH]; intros Hnd; simpl;
    inversion Hnd as [|? ? Hnot Hnd']; subst.
  - rewrite str_eqb_refl.
    destruct (Str.eqb (fst y) (fst x)) eqn:E; [|lia].
    apply str_eqb_eq in E. exfalso. apply Hnot. rewrite <- E.
    now apply in_map.
  - destruct (Str.eqb (fst x) (fst w)) eqn:Ex.
    + apply str_eqb_eq in Ex. exfalso. apply Hnot. rewrite <- Ex.
      apply in_map. eapply precedes_In_l; eassumption.
    + destruct (Str.eqb (fst y) (fst w)) eqn:Ey.
      * apply str_eqb_eq in Ey. exfalso. apply Hnot. rewrite <- Ey.
        apply in_map. eapply precedes_In_r; eassumption.
      * apply IH in Hnd'. lia.
Qed.

Lemma frequency_distribution_eq paths :
  get_xpath_frequency_distribution paths
  = Counter.most_common (Counter.of_list (map parentpath paths)).
Proof.
  unfold get_xpath_frequency_distribution. now rewrite map_map.
Qed.

Lemma ranking_keys_perm l :
  Permutation (keys l) (map fst (Counter.most_common (Counter.of_list l))).
Proof.
  rewrite <- (most_common_perm (Counter.of_list l)).
  destruct (of_list_keys l) as (-> & _ & _).
  rewrite map_map. simpl. now rewrite map_id.
Qed.

Lemma ranking_nonempty paths :
  paths <> [] -> get_xpath_frequency_distribution paths <> [].
Proof.
  intros Hne E. rewrite frequency_distribution_eq in E.
  pose proof (ranking_keys_perm (map parentpath paths)) as Hp.
  rewrite E in Hp. apply Permutation_sym, Permutation_nil in Hp.
  destruct paths as [|x paths]; [congruence|].
  destruct (of_list_keys (map parentpath (x :: paths))) as (_ & _ & Hin).
  rewrite Hp in Hin. apply (Hin (parentpath x)). now left.
Qed.

Lemma ranking_head paths P c rest :
  get_xpath_frequency_distribution paths = (P, c) :: rest ->
  exists x, In x paths /\ P = parentpath x.
Proof.
  intros E. rewrite frequency_distribution_eq in E.
  pose proof (ranking_keys_perm (map parentpath paths)) as Hp.
  rewrite E in Hp. simpl in Hp.
  destruct (of_list_keys (map parentpath paths)) as (_ & _ & Hin).
  assert (H : In P (map parentpath paths)).
  { apply Hin. apply (Permutation_in _ (Permutation_sym Hp)). now left. }
  apply in_map_iff in H as (x & <- & Hx). now exists x.
Qed.

End RankingFacts.

(** C5.  [get_xpath_frequency_distribution] takes of each path its parent,
    the path without its last step; its result holds each parent once, with
    the number of the paths that have it; the counts do not increase along
    the result; of two parents with the same count, the one that occurs first
    in the input comes first in the result. *)
Theorem frequency_distribution_ranked (paths : list str) :
  let parents := map parentpath paths in
  let ranking := get_xpath_frequency_distribution paths in
  (forall p step : str,
      ~ In "/"%char step -> parentpath (p ++ "/" ++ step) = p)
  /\ (forall P c, In (P, c) ranking <-> In P parents /\ c = tally P parents)
  /\ NoDup (map fst ranking)
  /\ StronglySorted descending ranking
  /\ (forall P1 P2,
         In P1 parents -> In P2 parents ->
         tally P1 parents = tally P2 parents ->
         index P1 parents < index P2 parents ->
         index P1 (map fst ranking) < index P2 (map fst ranking)).
Proof.
  intros parents ranking. subst ranking.
  rewrite RankingFacts.frequency_distribution_eq. fold parents.
  destruct (CounterFacts.of_list_keys parents) as (Hc & Hnd & Hin).
  pose proof (RankingFacts.most_common_perm (Counter.of_list parents)) as Hp.
  pose proof (RankingFacts.ranking_keys_perm parents) as Hk.
  split; [exact PathFacts.parentpath_step|].
  split; [|split; [|split]].
  - intros P c. split.
    + intros H. apply (Permutation_in _ (Permutation_sym Hp)) in H.
      rewrite Hc in H. apply in_map_iff in H as (x & [= -> <-] & Hx).
      split; [now apply Hin|reflexivity].
    + intros [H ->]. apply (Permutation_in _ Hp). rewrite Hc.
      apply (in_map (fun x => (x, tally x parents))). now apply Hin.
  - exact (Permutation_NoDup Hk Hnd).
  - apply RankingFacts.most_common_sorted.
  - intros P1 P2 H1 H2 Ht Hlt.
    apply (RankingFacts.precedes_index (P1, tally P1 parents)
                                       (P2, tally P2 parents)).
    + apply RankingFacts.most_common_stable; [|simpl; lia].
      rewrite Hc. apply RankingFacts.index_precedes; [now apply Hin|].
      now apply CounterFacts.keys_order.
    + exact (Permutation_NoDup Hk Hnd).
Qed.

(** ** Positions *)

Module DomFacts.

Lemma node_ind2 (P : node -> Prop) :
  (forall s, P (Text s)) ->
  (forall tag ks, Forall P ks -> P (Elem tag ks)) ->
  forall n, P n.
Proof.
  intros HT HE. fix IH 1. intros [s|tag ks]; [apply HT|apply HE].
  induction ks as [|k ks IHks]; constructor; [apply IH|exact IHks].
Qed.

Lemma pos_eqb_eq p q : Dom.pos_eqb p q = true <-> p = q.
Proof.
  revert q; induction p as [|i p IH]; intros [|j q]; simpl;
    try (split; [discriminate|discriminate]); [tauto|].
  rewrite andb_true_iff, Nat.eqb_eq, IH.
  split; [intros [-> ->]; reflexivity|intros [= -> ->]; auto].
Qed.

Lemma is_prefix_iff p q : Dom.is_prefix p q = true <-> exists r, q = p ++ r.
Proof.
  revert q; induction p as [|i p IH]; intros q; simpl.
  - split; [intros _; now exists q|reflexivity].
  - destruct q as [|j q].
    + split; [discriminate|intros [r [=]]].
    + rewrite andb_true_iff, Nat.eqb_eq, IH. split.
      * intros [-> [r ->]]. now exists r.
      * intros [r [= -> ->]]. split; [reflexivity|now exists r].
Qed.

Lemma is_child_iff p q : Dom.is_child p q = true <-> exists i, q = p ++ [i].
Proof.
  unfold Dom.is_child. destruct q as [|j q].
  - split; [discriminate|intros [i H]; now destruct p].
  - rewrite pos_eqb_eq. split.
    + intros <-. exists (last (j :: q) 0).
      apply app_removelast_last. discriminate.
    + intros [i ->]. apply removelast_last.
Qed.

Lemma in_combine_seq {A} (subs : list A) :
  forall k i x,
    In (i, x) (combine (seq k (List.length subs)) subs)
    <-> exists j, i = k + j /\ nth_error subs j = Some x.
Proof.
  induction subs as [|y subs IH]; intros k i x; simpl.
  - split; [intros []|intros [[|j] [_ [=]]]].
  - rewrite IH. split.
    + intros [[= <- <-]|(j & -> & Hj)].
      * exists 0. split; [lia|reflexivity].
      * exists (S j). split; [lia|exact Hj].
    + intros ([|j] & -> & Hj); simpl in Hj.
      * left. injection Hj as <-. f_equal. lia.
      * right. exists j. split; [lia|exact Hj].
Qed.

Lemma in_number_from k subs q :
  In q (number_from k subs)
  <-> exists j r ps,
      q = (k + j) :: r /\ nth_error subs j = Some ps /\ In r ps.
Proof.
  unfold number_from. rewrite in_flat_map. split.
  - intros ([i ps] & Hip & Hq). simpl in Hq.
    apply in_combine_seq in Hip as (j & -> & Hj).
    apply in_map_iff in Hq as (r & <- & Hr). now exists j, r, ps.
  - intros (j & r & ps & -> & Hj & Hr). exists (k + j, ps). split.
    + apply in_combine_seq. now exists j.
    + simpl. now apply in_map.
Qed.

Lemma number_is_from subs : Dom.number subs = number_from 0 subs.
Proof. reflexivity. Qed.

Lemma in_number subs q :
  In q (Dom.number subs)
  <-> exists i r ps, q = i :: r /\ nth_error subs i = Some ps /\ In r ps.
Proof. rewrite number_is_from. apply in_number_from. Qed.

Lemma number_from_cons k ps subs :
  number_from k (ps :: subs)
  = map (cons k) ps ++ number_from (S k) subs.
Proof. reflexivity. Qed.

Lemma NoDup_number_from subs :
  Forall (@NoDup pos) subs -> forall k, NoDup (number_from k subs).
Proof.
  induction 1 as [|ps subs Hps _ IH]; intros k; [constructor|].
  rewrite number_from_cons. apply NoDup_app.
  - apply NoDup_map_NoDup_ForallPairs; [|exact Hps].
    intros a b _ _ [= ->]. reflexivity.
  - apply IH.
  - intros a Ha Hb. apply in_map_iff in Ha as (r & <- & _).
    apply in_number_from in Hb as (j & r' & ps' & [= E _] & _). lia.
Qed.

Lemma NoDup_subtree n : NoDup (Dom.subtree n).
Proof.
  induction n as [s|tag ks IH] using node_ind2; simpl.
  - repeat constructor. intros [].
  - constructor.
    + intros H. apply in_number in H as (i & r & ps & [=] & _).
    + rewrite number_is_from. apply NoDup_number_from.
      now apply Forall_map.
Qed.

(** Each node of a document occurs once among its positions. *)
Lemma NoDup_positions doc : NoDup (Dom.positions doc).
Proof.
  unfold Dom.positions. constructor.
  - intros H. apply in_number in H as (i & r & ps & [=] & _).
  - rewrite number_is_from. apply NoDup_number_from.
    apply Forall_map. constructor; [apply NoDup_subtree|constructor].
Qed.

Lemma in_subtree n r :
  In r (Dom.subtree n)
  <-> r = [] \/ exists tag ks,
        n = Elem tag ks /\ In r (Dom.number (map Dom.subtree ks)).
Proof.
  destruct n as [s|tag ks]; simpl.
  - split; [intros [<-|[]]; now left|].
    intros [->|(? & ? & [=] & _)]. now left.
  - split.
    + intros [<-|H]; [now left|right; now exists tag, ks].
    + intros [->|(? & ? & [= <- <-] & H)]; [now left|now right].
Qed.

Lemma in_forest q :
  forall forest,
    In q (Dom.number (map Dom.subtree forest))
    <-> exists x, Dom.node_in forest q = Some x.
Proof.
  induction q as [|i q IH]; intros forest.
  - split.
    + intros H. apply in_number in H as (? & ? & ? & [=] & _).
    + intros [x [=]].
  - rewrite in_number. simpl. split.
    + intros (i' & r & ps & [= <- <-] & Hi & Hr).
      rewrite nth_error_map in Hi.
      destruct (nth_error forest i) as [n|]; [|discriminate].
      injection Hi as <-. apply in_subtree in Hr.
      destruct Hr as [->|(tag & ks & -> & Hr)]; [now exists n|].
      destruct q as [|j q]; [now eexists|]. now apply IH.
    + intros [x Hx].
      destruct (nth_error forest i) as [n|] eqn:En; [|discriminate].
      exists i, q, (Dom.subtree n). split; [reflexivity|].
      split; [now rewrite nth_error_map, En|].
      apply in_subtree. destruct q as [|j q]; [now left|right].
      destruct n as [s|tag ks]; [discriminate|].
      exists tag, ks. split; [reflexivity|]. apply IH. now exists x.
Qed.

(** The positions of a document: the root node and the nodes. *)
Lemma in_positions doc q :
  In q (Dom.positions doc)
  <-> q = [] \/ exists x, Dom.node_at doc q = Some x.
Proof.
  unfold Dom.positions, Dom.node_at. split.
  - intros [<-|H]; [now left|right; now apply in_forest].
  - intros [->|H]; [now left|right; now apply in_forest].
Qed.

Lemma node_in_snoc p :
  forall forest i,
    Dom.node_in forest (p ++ [i])
    = match p with
      | [] => nth_error forest i
      | _ :: _ =>
          match Dom.node_in forest p with
          | Some (Elem _ ks) => nth_error ks i
          | _ => None
          end
      end.
Proof.
  induction p as [|j p IH]; intros forest i; simpl.
  - now destruct (nth_error forest i).
  - destruct (nth_error forest j) as [n|]; [|now destruct (p ++ [i])].
    destruct p as [|j' p].
    + simpl. destruct n; [reflexivity|].
      now destruct (nth_error children i).
    + change ((j' :: p) ++ [i]) with (j' :: (p ++ [i])) in *.
      destruct n as [s|tag ks]; [reflexivity|].
      rewrite <- IH. reflexivity.
Qed.

(** Above a node are elements only. *)
Lemma node_in_app p r :
  forall forest x,
    Dom.node_in forest (p ++ r) = Some x -> p <> [] -> r <> [] ->
    exists tag ks, Dom.node_in forest p = Some (Elem tag ks).
Proof.
  induction p as [|j p IH]; intros forest x H Hp Hr; [congruence|].
  simpl in H |- *.
  destruct (nth_error forest j) as [n|]; [|discriminate].
  destruct p as [|j' p].
  - simpl in H. destruct r as [|i r]; [congruence|].
    destruct n as [s|tag ks]; [discriminate|]. now exists tag, ks.
  - change ((j' :: p) ++ r) with (j' :: (p ++ r)) in H.
    destruct n as [s|tag ks]; [discriminate|].
    apply (IH _ _ H); [discriminate|exact Hr].
Qed.

Lemma node_at_root doc : Dom.node_at doc [] = None.
Proof. reflexivity. Qed.

(** What is above a position of the document is one too. *)
Lemma in_positions_prefix doc p r :
  In (p ++ r) (Dom.positions doc) -> In p (Dom.positions doc).
Proof.
  rewrite !in_positions. intros [H|[x Hx]].
  - left. now destruct p.
  - destruct p as [|j p]; [now left|right].
    destruct r as [|i r]; [rewrite app_nil_r in Hx; now exists x|].
    destruct (node_in_app (j :: p) (i :: r) [doc] x Hx) as (tag & ks & H);
      try discriminate.
    eexists. exact H.
Qed.

End DomFacts.

(** ** Paths of nodes *)

Module GetpathFacts.

Lemma getpath_in_app p r :
  forall forest tag ks,
    Dom.node_in forest p = Some (Elem tag ks) ->
    Dom.getpath_in forest (p ++ r)
    = Dom.getpath_in forest p ++ Dom.getpath_in ks r.
Proof.
  induction p as [|i p IH]; intros forest tag ks H; [discriminate|].
  simpl in H |- *.
  destruct (nth_error forest i) as [n|]; [|discriminate].
  destruct p as [|j p].
  - injection H as ->. simpl. f_equal.
    repeat rewrite <- app_assoc. reflexivity.
  - destruct n as [s|tag' ks']; [discriminate|].
    rewrite (IH _ _ _ H). simpl. f_equal.
    repeat rewrite <- app_assoc. reflexivity.
Qed.

(** The path of an element starts the paths of the nodes under it. *)
Lemma getpath_descendant doc p r tag ks :
  Dom.node_at doc p = Some (Elem tag ks) ->
  Str.contains (Dom.getpath doc p) (Dom.getpath doc (p ++ r)) = true.
Proof.
  intros H. apply StrFacts.contains_startswith.
  destruct p as [|i p]; [discriminate|].
  change (Dom.getpath doc ((i :: p) ++ r))
    with (Dom.getpath_in [doc] ((i :: p) ++ r)).
  change (Dom.getpath doc (i :: p)) with (Dom.getpath_in [doc] (i :: p)).
  rewrite (getpath_in_app (i :: p) r [doc] tag ks H).
  apply StrFacts.startswith_app.
Qed.

End GetpathFacts.

(** ** Document order *)

Module OrderFacts.

Import DomFacts.

Lemma sorted_app {A} (R : A -> A -> Prop) l1 l2 :
  StronglySorted R l1 -> StronglySorted R l2 ->
  (forall a b, In a l1 -> In b l2 -> R a b) ->
  StronglySorted R (l1 ++ l2).
Proof.
  induction 1 as [|x l1 Hs IH Hx]; intros H2 H; simpl; [exact H2|].
  constructor.
  - apply IH; [exact H2|]. intros a b Ha Hb. apply H; [now right|exact Hb].
  - apply Forall_app. split; [exact Hx|].
    apply Forall_forall. intros b Hb. apply H; [now left|exact Hb].
Qed.

Lemma sorted_filter {A} (R : A -> A -> Prop) (f : A -> bool) l :
  StronglySorted R l -> StronglySorted R (filter f l).
Proof.
  induction 1 as [|x l Hs IH Hx]; simpl; [constructor|].
  destruct (f x); [|exact IH]. constructor; [exact IH|].
  rewrite Forall_forall in Hx |- *. intros y Hy.
  apply filter_In in Hy as [Hy _]. now apply Hx.
Qed.

Lemma sorted_map_cons k ps :
  StronglySorted doc_before ps ->
  StronglySorted doc_before (map (cons k) ps).
Proof.
  induction 1 as [|x l Hs IH Hx]; simpl; constructor; [exact IH|].
  rewrite Forall_forall in Hx |- *. intros y Hy.
  apply in_map_iff in Hy as (z & <- & Hz). simpl. right.
  split; [reflexivity|now apply Hx].
Qed.

Lemma sorted_number_from subs :
  Forall (StronglySorted doc_before) subs ->
  forall k, StronglySorted doc_before (number_from k subs).
Proof.
  induction 1 as [|ps subs Hps _ IH]; intros k; [constructor|].
  rewrite number_from_cons. apply sorted_app.
  - now apply sorted_map_cons.
  - apply IH.
  - intros a b Ha Hb. apply in_map_iff in Ha as (r & <- & _).
    apply in_number_from in Hb as (j & r' & ps' & -> & _).
    simpl. left. lia.
Qed.

Lemma sorted_subtree n : StronglySorted doc_before (Dom.subtree n).
Proof.
  induction n as [s|tag ks IH] using node_ind2; simpl.
  - repeat constructor.
  - constructor.
    + rewrite number_is_from. apply sorted_number_from.
      now apply Forall_map.
    + apply Forall_forall. intros q Hq.
      apply in_number in Hq as (i & r & ps & -> & _). exact I.
Qed.

(** The positions of a document are in document order. *)
Lemma sorted_positions doc : StronglySorted doc_before (Dom.positions doc).
Proof.
  unfold Dom.positions. constructor.
  - rewrite number_is_from. apply sorted_number_from.
    apply Forall_map. constructor; [apply sorted_subtree|constructor].
  - apply Forall_forall. intros q Hq.
    apply in_number in Hq as (i & r & ps & -> & _). exact I.
Qed.

End OrderFacts.

(** ** The query *)

Module XPathFacts.

Import DomFacts PathFacts.

Lemma in_eval_step doc st ctx q :
  In q (eval_step doc st ctx)
  <-> In q (Dom.positions doc)
      /\ (exists p, In p ctx /\ on_axis (step_axis st) p q = true)
      /\ test doc (step_test st) q = true
      /\ forallb (fun a => holds doc a q) (step_preds st) = true.
Proof.
  unfold eval_step. rewrite filter_In, !andb_true_iff, existsb_exists.
  tauto.
Qed.

Lemma eval_snoc doc e st ctx :
  eval doc (e ++ [st]) ctx = eval_step doc st (eval doc e ctx).
Proof. unfold eval. now rewrite fold_left_app. Qed.

Lemma NoDup_eval_step doc st ctx : NoDup (eval_step doc st ctx).
Proof. apply NoDup_filter, NoDup_positions. Qed.

(** A node-set holds no node twice. *)
Lemma NoDup_eval doc e ctx : NoDup ctx -> NoDup (eval doc e ctx).
Proof.
  destruct e as [|st e] using rev_ind; [trivial|].
  intros _. rewrite eval_snoc. apply NoDup_eval_step.
Qed.

Lemma holds_not_wrapper doc q tag ks :
  Dom.node_at doc q = Some (Elem tag ks) ->
  holds doc not_wrapper q = negb (is_wrapper tag).
Proof.
  intros H. unfold not_wrapper, is_wrapper, wrappers.
  cbn [holds existsb]. unfold test. rewrite H.
  now rewrite orb_false_r, !orb_assoc.
Qed.

Lemma string_value_text doc q s :
  Dom.node_at doc q = Some (Text s) -> Dom.string_value doc q = s.
Proof. unfold Dom.string_value. now intros ->. Qed.

Lemma under_body_iff doc p :
  under_body doc p = true
  <-> exists b r ks,
      p = b ++ r /\ r <> [] /\ Dom.node_at doc b = Some (Elem "body" ks).
Proof.
  unfold under_body. rewrite existsb_exists. split.
  - intros (k & Hk & H). apply in_seq in Hk.
    destruct (Dom.node_at doc (firstn k p)) as [[s|t ks]|] eqn:E;
      try discriminate.
    apply str_eqb_eq in H. subst t.
    exists (firstn k p), (skipn k p), ks. repeat split.
    + now rewrite firstn_skipn.
    + intros Hr. apply (f_equal (@List.length nat)) in Hr.
      rewrite length_skipn in Hr. simpl in Hr. lia.
    + exact E.
  - intros (b & r & ks & -> & Hr & Hb). exists (List.length b). split.
    + apply in_seq. rewrite length_app.
      destruct r; [congruence|simpl; lia].
    + rewrite firstn_app, Nat.sub_diag, firstn_all. simpl.
      rewrite app_nil_r, Hb. apply str_eqb_refl.
Qed.

Lemma existsb_long_text n ks :
  existsb (long_text n) ks = true
  <-> exists i s,
      nth_error ks i = Some (Text s)
      /\ (n <? Z.of_nat (List.length (normalize_space s)))%Z = true.
Proof.
  rewrite existsb_exists. split.
  - intros (k & Hk & H). destruct k as [s|]; [|discriminate].
    apply In_nth_error in Hk as [i Hi]. now exists i, s.
  - intros (i & s & Hi & H). exists (Text s).
    split; [eapply nth_error_In; eassumption|exact H].
Qed.

Section Finder.

Variable doc : document.
Variable n : Z.

Let s1 := Step DescendantOrSelf AnyNode [].
Let s2 := Step Child (Named "body") [].
Let s4 := Step Child AnyElement [not_wrapper].
Let s5 := Step Child IsText [NormLengthGt n].
Let s6 := Step Parent AnyNode [].

Let S1 := eval_step doc s1 [[]].
Let S2 := eval_step doc s2 S1.
Let S3 := eval_step doc s1 S2.
Let S4 := eval_step doc s4 S3.
Let S5 := eval_step doc s5 S4.
Let S6 := eval_step doc s6 S5.

Lemma finder_steps : xpath doc (text_finder n) = S6.
Proof. reflexivity. Qed.

Lemma in_S1 q : In q S1 <-> In q (Dom.positions doc).
Proof.
  unfold S1, s1. rewrite in_eval_step. cbn [step_axis step_test step_preds on_axis forallb]. unfold test.
  split; [tauto|].
  intros H. repeat split; auto. exists []. split; [now left|reflexivity].
Qed.

Lemma in_S2 b :
  In b S2 <-> exists ks, Dom.node_at doc b = Some (Elem "body" ks).
Proof.
  unfold S2, s2. rewrite in_eval_step. cbn [step_axis step_test step_preds on_axis forallb].
  unfold test. split.
  - intros (_ & _ & H & _).
    destruct (Dom.node_at doc b) as [[s|t ks]|]; try discriminate.
    apply str_eqb_eq in H. subst. now exists ks.
  - intros [ks Hb].
    assert (Hin : In b (Dom.positions doc)).
    { apply in_positions. right. eexists; eassumption. }
    assert (Hne : b <> []) by (intros ->; discriminate).
    rewrite (app_removelast_last 0 Hne) in Hin.
    repeat split.
    + apply in_positions. right. eexists; eassumption.
    + exists (removelast b). split.
      * apply in_S1. eapply in_positions_prefix. exact Hin.
      * apply is_child_iff. exists (last b 0).
        now apply app_removelast_last.
    + rewrite Hb. apply str_eqb_refl.
Qed.

Lemma in_S3 p :
  In p S3
  <-> In p (Dom.positions doc)
      /\ exists b r ks,
         p = b ++ r /\ Dom.node_at doc b = Some (Elem "body" ks).
Proof.
  unfold S3, s1. rewrite in_eval_step. cbn [step_axis step_test step_preds on_axis forallb].
  unfold test. split.
  - intros (Hp & (b & Hb & Hpre) & _). split; [exact Hp|].
    apply in_S2 in Hb as [ks Hb].
    apply is_prefix_iff in Hpre as [r ->]. now exists b, r, ks.
  - intros (Hp & b & r & ks & -> & Hb). repeat split; auto.
    exists b. split; [apply in_S2; now exists ks|].
    apply is_prefix_iff. now exists r.
Qed.

Lemma in_S4 e :
  In e S4
  <-> exists tag ks,
      Dom.node_at doc e = Some (Elem tag ks)
      /\ is_wrapper tag = false /\ under_body doc e = true.
Proof.
  unfold S4, s4. rewrite in_eval_step. cbn [step_axis step_test step_preds on_axis forallb].
  unfold test. split.
  - intros (_ & (p & Hp & Hc) & He & Hw).
    destruct (Dom.node_at doc e) as [[s|tag ks]|] eqn:E; try discriminate.
    exists tag, ks. split; [reflexivity|].
    rewrite andb_true_r, (holds_not_wrapper _ _ _ _ E) in Hw.
    apply negb_true_iff in Hw. split; [exact Hw|].
    apply in_S3 in Hp as (_ & b & r & ks' & -> & Hb).
    apply is_child_iff in Hc as [i ->].
    apply under_body_iff. exists b, (r ++ [i]), ks'.
    repeat split; [now rewrite app_assoc|now destruct r|exact Hb].
  - intros (tag & ks & E & Hw & Hu).
    assert (Hin : In e (Dom.positions doc)).
    { apply in_positions. right. eexists; eassumption. }
    apply under_body_iff in Hu as (b & r & ks' & -> & Hr & Hb).
    rewrite E, (holds_not_wrapper _ _ _ _ E), Hw.
    repeat split; auto.
    exists (b ++ removelast r). split.
    + apply in_S3. split.
      * rewrite (app_removelast_last 0 Hr), app_assoc in Hin.
        eapply in_positions_prefix. exact Hin.
      * now exists b, (removelast r), ks'.
    + apply is_child_iff. exists (last r 0).
      rewrite <- app_assoc. f_equal. now apply app_removelast_last.
Qed.

Lemma in_S5 t :
  In t S5
  <-> exists e i s,
      t = e ++ [i] /\ In e S4 /\ Dom.node_at doc t = Some (Text s)
      /\ (n <? Z.of_nat (List.length (normalize_space s)))%Z = true.
Proof.
  unfold S5, s5. rewrite in_eval_step. cbn [step_axis step_test step_preds on_axis forallb].
  cbn [holds]. unfold test. split.
  - intros (_ & (e & He & Hc) & Ht & Hl).
    apply is_child_iff in Hc as [i ->].
    destruct (Dom.node_at doc (e ++ [i])) as [[s|tag ks]|] eqn:E;
      try discriminate.
    exists e, i, s. repeat split; auto.
    rewrite andb_true_r, (string_value_text _ _ _ E) in Hl. exact Hl.
  - intros (e & i & s & -> & He & E & Hl). repeat split.
    + apply in_positions. right. eexists; eassumption.
    + exists e. split; [exact He|]. apply is_child_iff. now exists i.
    + now rewrite E.
    + now rewrite andb_true_r, (string_value_text _ _ _ E).
Qed.

Lemma in_S6 e : In e S6 <-> is_candidate doc n e = true.
Proof.
  unfold S6, s6. rewrite in_eval_step. cbn [step_axis step_test step_preds on_axis forallb].
  unfold test, is_candidate. split.
  - intros (_ & (t & Ht & Hc) & _).
    apply in_S5 in Ht as (e' & i & s & -> & He & E & Hl).
    apply is_child_iff in Hc as [j Hj].
    apply app_inj_tail in Hj as [-> _].
    apply in_S4 in He as (tag & ks & Ee & Hw & Hu).
    rewrite Ee, Hw, Hu. simpl.
    apply existsb_long_text. exists i, s. split; [|exact Hl].
    unfold Dom.node_at in E, Ee. rewrite node_in_snoc in E.
    destruct e as [|x e]; [discriminate|]. now rewrite Ee in E.
  - destruct (Dom.node_at doc e) as [[s|tag ks]|] eqn:Ee;
      try discriminate.
    rewrite !andb_true_iff, negb_true_iff. intros [[Hw Hu] Hl].
    apply existsb_long_text in Hl as (i & s & Hi & Hl).
    assert (E : Dom.node_at doc (e ++ [i]) = Some (Text s)).
    { unfold Dom.node_at in Ee |- *. rewrite node_in_snoc.
      destruct e as [|x e]; [discriminate|]. now rewrite Ee. }
    repeat split.
    + apply in_positions. right. eexists; eassumption.
    + exists (e ++ [i]). split.
      * apply in_S5. exists e, i, s. repeat split; auto.
        apply in_S4. now exists tag, ks.
      * apply is_child_iff. now exists i.
Qed.

(** The query returns the candidates, in document order. *)
Lemma finder_candidates :
  xpath doc (text_finder n)
  = filter (is_candidate doc n) (Dom.positions doc).
Proof.
  rewrite finder_steps. unfold S6 at 1, eval_step.
  apply filter_ext_in. intros q Hq. apply eq_true_iff_eq.
  rewrite <- in_S6. unfold S6, eval_step. rewrite filter_In. tauto.
Qed.

End Finder.

End XPathFacts.

(** ** The extraction *)

Module ExtractFacts.

Import PathFacts PairFacts RankingFacts XPathFacts.

Lemma finder_threshold min :
  build_text_finder min = text_finder (threshold min).
Proof. now destruct min. Qed.


(** Without pairs there is no first parent to take. *)
Lemma extract_raises doc min :
  get_sentence_xpath_tuples doc (build_text_finder min) = [] ->
  extract doc min = Raise IndexError.
Proof. unfold extract. now intros ->. Qed.

(** With pairs, what is kept starts with the first pair of a node, and the
    text returned is what is kept without the leading paragraph break. *)
Lemma extract_kept doc min :
  get_sentence_xpath_tuples doc (build_text_finder min) <> [] ->
  exists s x rest,
    kept_pairs doc min = (paragraph_break ++ s, x) :: rest
    /\ sentence_like s
    /\ extract doc min = Return (Str.join " " (s :: map fst rest)).
Proof.
  intros Hne. unfold extract, kept_pairs. cbv zeta.
  set (pairs := get_sentence_xpath_tuples doc (build_text_finder min)) in *.
  destruct (get_xpath_frequency_distribution (map snd pairs))
    as [|[P c] rk] eqn:Er.
  - exfalso. apply (ranking_nonempty (map snd pairs)); [|exact Er].
    destruct pairs; [congruence|discriminate].
  - cbn [fst].
    destruct (ranking_head _ _ _ _ Er) as (x0 & Hx0 & HP).
    apply in_map_iff in Hx0 as ([s0 x0'] & Heq & Hin).
    simpl in Heq; subst x0'.
    assert (Hk : In (s0, x0)
                    (filter (fun sx : str * str => Str.contains P (snd sx))
                            pairs)).
    { apply filter_In. split; [exact Hin|].
      simpl. subst P. apply parentpath_contains. }
    pose proof (kept_blocks (Dom.getpath doc) (all_text doc)
                  (Str.contains P) (xpath doc (build_text_finder min)))
      as Hb.
    cbv zeta in Hb. rewrite <- tuples_blocks in Hb. fold pairs in Hb.
    destruct Hb as [Hb|(s & x & rest & Hb & Hs)].
    + rewrite Hb in Hk. destruct Hk.
    + exists s, x, rest. rewrite Hb.
      split; [reflexivity|]. split; [exact Hs|].
      cbn [map fst]. now rewrite join_mark.
Qed.

End ExtractFacts.

(** * The claims *)

(** C1.  The path of an element is a substring of the path of each node
    under it, so that [extract] keeps the sentences of the first parent of
    the ranking and of its descendants; it keeps others too.  On [doc_pre]
    the first parent of the ranking is the path of the [p] element; the [pre]
    element is no descendant of it, yet its path holds the path of [p] as a
    substring, and [extract] keeps its sentence: the text returned ends with
    the text of the [pre] element. *)
Theorem extract_keeps_pre_text :
  let pairs := get_sentence_xpath_tuples doc_pre (build_text_finder None) in
  (forall doc p r tag ks,
      Dom.node_at doc p = Some (Elem tag ks) ->
      Str.contains (Dom.getpath doc p) (Dom.getpath doc (p ++ r)) = true)
  /\ Dom.getpath doc_pre [0; 1; 0] = "/html/body/p"
  /\ Dom.getpath doc_pre [0; 1; 1] = "/html/body/pre"
  /\ Dom.is_prefix [0; 1; 0] [0; 1; 1] = false
  /\ map fst (get_xpath_frequency_distribution (map snd pairs))
     = ["/html/body/p" : str; "/html/body" : str]
  /\ Str.contains "/html/body/p" "/html/body/pre" = true
  /\ In (paragraph_break ++ "Unrelated text outside of the article.",
         "/html/body/pre" : str)
        (kept_pairs doc_pre None)
  /\ extract doc_pre None
     = Return (("The first sentence of the article. " : str)
               ++ paragraph_break
               ++ "The second sentence of the article. "
               ++ paragraph_break
               ++ "Unrelated text outside of the article.").
Proof.
  cbv zeta.
  split; [exact GetpathFacts.getpath_descendant|].
  split; [vm_compute; reflexivity|].
  split; [vm_compute; reflexivity|].
  split; [vm_compute; reflexivity|].
  split; [vm_compute; reflexivity|].
  split; [vm_compute; reflexivity|].
  split; [|vm_compute; reflexivity].
  vm_compute. right. right. left. reflexivity.
Qed.



(** C3, as claimed, fails: [doc_no_stop] has a candidate, the [p] element,
    and [extract] raises [IndexError] on it. *)
Lemma extract_candidate_no_sentence :
  xpath doc_no_stop (build_text_finder None) = [[0; 1; 0; 0]]
  /\ is_candidate doc_no_stop 20 [0; 1; 0; 0] = true
  /\ extract doc_no_stop None = Raise IndexError.
Proof. repeat split; vm_compute; reflexivity. Qed.

(** C3, amended.  When the candidates of the document give at least one
    sentence, [extract] returns a string that is not empty. *)
Theorem extract_returns_text (doc : document) (min : option Z) :
  get_sentence_xpath_tuples doc (build_text_finder min) <> [] ->
  exists r, extract doc min = Return r /\ r <> [].
Proof.
  intros H.
  destruct (ExtractFacts.extract_kept doc min H) as (s & x & rest & _ & Hs & E).
  eexists. split; [exact E|].
  apply StrFacts.sentence_like_nonempty in Hs.
  destruct s as [|c s]; [congruence|].
  destruct (map fst rest); discriminate.
Qed.

Lemma extract_returns_text_witness :
  get_sentence_xpath_tuples doc_two_divs (build_text_finder None) <> []
  /\ exists r, extract doc_two_divs None = Return r /\ r <> [].
Proof.
  split; [vm_compute; discriminate|].
  apply (extract_returns_text doc_two_divs None). vm_compute. discriminate.
Defined.

(** C4, as claimed, fails: in [doc_split_text] the direct text of the [p]
    element is longer than 20 characters once normalized, and the query
    returns no element, no text child of [p] being that long; in
    [doc_long_title] the text of the [title] element is longer than 20
    characters, and the query returns no element, [title] not being below
    [body]. *)
Lemma finder_misses_split_text :
  filter (direct_text_candidate doc_split_text 20)
         (Dom.positions doc_split_text) = [[0; 1; 0; 0]]
  /\ xpath doc_split_text (build_text_finder None) = []
  /\ filter (direct_text_candidate doc_long_title 20)
            (Dom.positions doc_long_title) = [[0; 0; 0]]
  /\ xpath doc_long_title (build_text_finder None) = [].
Proof. repeat split; vm_compute; reflexivity. Qed.

(** C4, amended.  The query returns, in document order and each once, the
    elements below a [body] element whose tag is none of [script], [style],
    [i], [b], [strong], [span], [a] and one of whose text children is, once
    normalized, longer than the threshold; the threshold is 20 by default
    and [n] when [min_str_length] is [n]. *)
Theorem finder_returns_candidates (doc : document) (min : option Z) :
  xpath doc (build_text_finder min)
  = filter (is_candidate doc (threshold min)) (Dom.positions doc)
  /\ StronglySorted doc_before (xpath doc (build_text_finder min))
  /\ NoDup (xpath doc (build_text_finder min))
  /\ threshold None = 20%Z
  /\ forall n, threshold (Some n) = n.
Proof.
  rewrite ExtractFacts.finder_threshold, XPathFacts.finder_candidates.
  split; [reflexivity|].
  split; [apply OrderFacts.sorted_filter, OrderFacts.sorted_positions|].
  split; [apply NoDup_filter, DomFacts.NoDup_positions|].
  split; reflexivity.
Qed.


Lemma in_mark_first (s : str) l :
  In s (mark_first l) ->
  exists i body,
    nth_error l i = Some body
    /\ s = if i =? 0 then paragraph_break ++ body else body.
Proof.
  destruct l as [|s0 l]; [intros []|]. intros [<-|H].
  - now exists 0, s0.
  - apply In_nth_error in H as [j Hj]. now exists (S j), s.
Qed.





(** C8.  The text [Dr. Smith won. He left.] has two pieces, which are its two
    sentences: [Dr. Smith won.] and [He left.]. *)
Theorem sentences_after_abbreviation :
  pieces "Dr. Smith won. He left."
  = ["Dr. Smith won." : str; "He left." : str]
  /\ sentences "Dr. Smith won. He left."
     = ["Dr. Smith won." : str; "He left." : str].
Proof. split; vm_compute; reflexivity. Qed.

(** C9.  Each pair that [get_sentence_xpath_tuples] returns comes from a
    sentence of a candidate, a text that is not empty and ends with one of
    the terminal characters: its text is that sentence, after the paragraph
    break when the sentence is the first one of the candidate. *)
Theorem sentence_unit_invariant (doc : document) (xp : path) (s x : str) :
  In (s, x) (get_sentence_xpath_tuples doc xp) ->
  exists n i body,
    In n (xpath doc xp)
    /\ x = Dom.getpath doc n
    /\ nth_error (sentences (all_text doc n)) i = Some body
    /\ sentence_like body
    /\ s = if i =? 0 then paragraph_break ++ body else body.
Proof.
  rewrite PairFacts.tuples_blocks, in_flat_map.
  intros (n & Hn & H). apply in_map_iff in H as (s' & [= <- <-] & H).
  apply in_mark_first in H as (i & body & Hi & Hs).
  exists n, i, body. repeat split; auto.
  pose proof (PairFacts.sentences_sentence_like (all_text doc n)) as Hf.
  rewrite Forall_forall in Hf. apply Hf.
  eapply nth_error_In. exact Hi.
Qed.

Lemma sentence_unit_invariant_witness :
  In ("It has two sentences." : str, "/html/body/div[1]/p[3]" : str)
     (get_sentence_xpath_tuples doc_two_divs TEXT_FINDER_XPATH)
  /\ exists n i body,
      In n (xpath doc_two_divs TEXT_FINDER_XPATH)
      /\ ("/html/body/div[1]/p[3]" : str) = Dom.getpath doc_two_divs n
      /\ nth_error (sentences (all_text doc_two_divs n)) i = Some body
      /\ sentence_like body
      /\ ("It has two sentences." : str)
         = if i =? 0 then paragraph_break ++ body else body.
Proof.
  split.
  - vm_compute. right. right. right. left. reflexivity.
  - apply (sentence_unit_invariant doc_two_divs TEXT_FINDER_XPATH).
    vm_compute. right. right. right. left. reflexivity.
Defined.

(** C10, as claimed, fails: in [doc_two_texts] the [p] element has two long
    text children and occurs once among the candidates; its three sentences
    are in the pairs once each, and its parent is counted three times. *)
Lemma two_texts_one_candidate :
  long_texts doc_two_texts 20 [0; 1; 0; 0] = 2
  /\ count_occ pos_eq_dec (xpath doc_two_texts TEXT_FINDER_XPATH) [0; 1; 0; 0]
     = 1
  /\ map snd (get_sentence_xpath_tuples doc_two_texts TEXT_FINDER_XPATH)
     = ["/html/body/div/p" : str; "/html/body/div/p" : str;
        "/html/body/div/p" : str]
  /\ get_xpath_frequency_distribution
       (map snd (get_sentence_xpath_tuples doc_two_texts TEXT_FINDER_XPATH))
     = [("/html/body/div" : str, 3)].
Proof. repeat split; vm_compute; reflexivity. Qed.

(** C10, amended.  A candidate occurs once in the list of the nodes that the
    query returns, however many of its text children are long; the pairs are
    those of the nodes before it, then its own, then those of the nodes after
    it, and each of its sentences gives one pair, with its path. *)
Theorem candidate_occurs_once (doc : document) (min : option Z) (p : pos) :
  is_candidate doc (threshold min) p = true ->
  let nodes := xpath doc (build_text_finder min) in
  let pairs_of :=
    flat_map (fun n => node_pairs (Dom.getpath doc n) (all_text doc n)) in
  count_occ pos_eq_dec nodes p = 1
  /\ (exists l1 l2,
         nodes = l1 ++ p :: l2 /\ ~ In p l1 /\ ~ In p l2
         /\ get_sentence_xpath_tuples doc (build_text_finder min)
            = pairs_of l1
              ++ node_pairs (Dom.getpath doc p) (all_text doc p)
              ++ pairs_of l2)
  /\ map snd (node_pairs (Dom.getpath doc p) (all_text doc p))
     = repeat (Dom.getpath doc p)
              (List.length (sentences (all_text doc p))).
Proof.
  intros H nodes pairs_of.
  assert (Hnd : NoDup nodes).
  { apply XPathFacts.NoDup_eval. repeat constructor. intros []. }
  assert (Hin : In p nodes).
  { unfold nodes.
    rewrite ExtractFacts.finder_threshold, XPathFacts.finder_candidates.
    apply filter_In. split; [|exact H].
    apply DomFacts.in_positions. right. unfold is_candidate in H.
    destruct (Dom.node_at doc p) as [x|]; [now exists x|discriminate]. }
  split; [|split].
  - pose proof (proj1 (NoDup_count_occ pos_eq_dec nodes) Hnd p) as Hle.
    apply (count_occ_In pos_eq_dec) in Hin. lia.
  - destruct (in_split _ _ Hin) as (l1 & l2 & E).
    exists l1, l2. rewrite E in Hnd.
    apply NoDup_remove_2 in Hnd.
    split; [exact E|].
    split; [intros Hp; apply Hnd, in_or_app; now left|].
    split; [intros Hp; apply Hnd, in_or_app; now right|].
    unfold get_sentence_xpath_tuples. fold nodes. rewrite E.
    now rewrite flat_map_app.
  - rewrite PairFacts.node_pairs_mark_first, map_map. cbn [snd].
    destruct (sentences (all_text doc p)) as [|s l]; [reflexivity|].
    simpl. f_equal. induction l; simpl; [reflexivity|now f_equal].
Qed.

Lemma candidate_occurs_once_witness :
  is_candidate doc_two_texts (threshold None) [0; 1; 0; 0] = true
  /\ count_occ pos_eq_dec (xpath doc_two_texts (build_text_finder None))
               [0; 1; 0; 0] = 1.
Proof.
  split; [vm_compute; reflexivity|].
  apply (candidate_occurs_once doc_two_texts None [0; 1; 0; 0]).
  vm_compute. reflexivity.
Defined.

Lemma frequency_distribution_ranked_witness :
  index "/html/body/div[1]" (map parentpath ["/html/body/div[1]/p" : str; "/html/body/div[2]/p" : str])
  < index "/html/body/div[2]" (map parentpath ["/html/body/div[1]/p" : str; "/html/body/div[2]/p" : str])
  /\ index "/html/body/div[1]"
           (map fst (get_xpath_frequency_distribution
                       ["/html/body/div[1]/p" : str; "/html/body/div[2]/p" : str]))
     < index "/html/body/div[2]"
             (map fst (get_xpath_frequency_distribution
                         ["/html/body/div[1]/p" : str; "/html/body/div[2]/p" : str])).
Proof.
  split; [vm_compute; lia|].
  apply (frequency_distribution_ranked
           ["/html/body/div[1]/p" : str; "/html/body/div[2]/p" : str]).
  - vm_compute. left. reflexivity.
  - vm_compute. right. left. reflexivity.
  - vm_compute. reflexivity.
  - vm_compute. lia.
Defined.

(** * Further properties *)

(** ** The ranking *)

Module TallyFacts.

Import PathFacts CounterFacts RankingFacts.

Lemma sum_incr k c :
  list_sum (map snd (Counter.incr k c)) = S (list_sum (map snd c)).
Proof.
  induction c as [|[k' n] c IH]; simpl; [reflexivity|].
  destruct (Str.eqb k k'); simpl; [reflexivity|]. rewrite IH. lia.
Qed.

Lemma sum_of_list l :
  list_sum (map snd (Counter.of_list l)) = List.length l.
Proof.
  induction l as [|k l IH] using rev_ind; [reflexivity|].
  rewrite of_list_snoc, sum_incr, IH, length_app. simpl. lia.
Qed.

Lemma sum_perm (l l' : list nat) :
  Permutation l l' -> list_sum l = list_sum l'.
Proof. induction 1; simpl; lia. Qed.

Lemma ranking_entries paths P c :
  In (P, c) (get_xpath_frequency_distribution paths)
  <-> In P (map parentpath paths) /\ c = tally P (map parentpath paths).
Proof.
  rewrite frequency_distribution_eq.
  set (parents := map parentpath paths).
  destruct (of_list_keys parents) as (Hc & _ & Hin).
  pose proof (most_common_perm (Counter.of_list parents)) as Hp.
  split.
  - intros H. apply (Permutation_in _ (Permutation_sym Hp)) in H.
    rewrite Hc in H. apply in_map_iff in H as (x & [= -> <-] & Hx).
    split; [now apply Hin|reflexivity].
  - intros [H ->]. apply (Permutation_in _ Hp). rewrite Hc.
    apply (in_map (fun x => (x, tally x parents))). now apply Hin.
Qed.

End TallyFacts.

(** X1.  The counts of the ranking add up to the number of the paths given;
    the ranking is empty when no path is given, and then only. *)
Theorem ranking_counts_paths (paths : list str) :
  list_sum (map snd (get_xpath_frequency_distribution paths))
  = List.length paths
  /\ (get_xpath_frequency_distribution paths = [] <-> paths = []).
Proof.
  assert (Hs : list_sum (map snd (get_xpath_frequency_distribution paths))
               = List.length paths).
  { rewrite RankingFacts.frequency_distribution_eq.
    rewrite <- (TallyFacts.sum_perm _ _
                  (Permutation_map snd (RankingFacts.most_common_perm _))).
    now rewrite TallyFacts.sum_of_list, length_map. }
  split; [exact Hs|]. split.
  - intros E. rewrite E in Hs. destruct paths; [reflexivity|discriminate].
  - now intros ->.
Qed.

(** X2.  The first entry of the ranking is a parent of the greatest count:
    its count is the number of the paths that have it for parent, it is not
    zero, and no path is the parent of more paths. *)
Theorem ranking_head_greatest (paths : list str) (P : str) (c : nat)
        (rest : Counter.t) :
  get_xpath_frequency_distribution paths = (P, c) :: rest ->
  c = tally P (map parentpath paths)
  /\ 0 < c
  /\ forall Q, tally Q (map parentpath paths) <= c.
Proof.
  intros E.
  assert (HP : In (P, c) (get_xpath_frequency_distribution paths))
    by (rewrite E; now left).
  apply TallyFacts.ranking_entries in HP as [HP Hc].
  split; [exact Hc|]. split.
  - rewrite Hc. now apply CounterFacts.tally_In.
  - intros Q.
    destruct (in_dec str_eq_dec Q (map parentpath paths)) as [HQ|HQ].
    + assert (H : In (Q, tally Q (map parentpath paths))
                     (get_xpath_frequency_distribution paths))
        by (now apply TallyFacts.ranking_entries).
      rewrite E in H. destruct H as [[= _ <-]|H]; [lia|].
      pose proof (RankingFacts.most_common_sorted
                    (Counter.of_list (map parentpath paths))) as Hs.
      rewrite <- RankingFacts.frequency_distribution_eq, E in Hs.
      apply StronglySorted_inv in Hs as [_ Hs].
      rewrite Forall_forall in Hs. exact (Hs _ H).
    + destruct (tally Q (map parentpath paths)) eqn:Et; [lia|].
      exfalso. apply HQ, CounterFacts.tally_In. lia.
Qed.

Lemma ranking_head_greatest_witness :
  get_xpath_frequency_distribution
    ["/html/body/div[1]/p" : str; "/html/body/div[2]/p[1]" : str;
     "/html/body/div[2]/p[2]" : str]
  = [("/html/body/div[2]" : str, 2); ("/html/body/div[1]" : str, 1)]
  /\ forall Q,
      tally Q (map parentpath
                   ["/html/body/div[1]/p" : str; "/html/body/div[2]/p[1]" : str;
                    "/html/body/div[2]/p[2]" : str]) <= 2.
Proof.
  split; [vm_compute; reflexivity|].
  apply (ranking_head_greatest
           ["/html/body/div[1]/p" : str; "/html/body/div[2]/p[1]" : str;
            "/html/body/div[2]/p[2]" : str]
           "/html/body/div[2]" 2 [("/html/body/div[1]" : str, 1)]).
  vm_compute. reflexivity.
Defined.

(** ** Parent paths *)

Module ParentFacts.

Import PathFacts.

Lemma split_parts_plain sep s :
  Forall (fun x => ~ In sep x) (Str.split sep s).
Proof.
  induction s as [|c s IH]; simpl.
  - constructor; [intros []|constructor].
  - destruct (Ascii.eqb c sep) eqn:E.
    + constructor; [intros []|exact IH].
    + assert (Hc : c <> sep)
        by (intros ->; now rewrite Ascii.eqb_refl in E).
      destruct (Str.split sep s) as [|h t].
      * constructor; [|constructor]. intros [H|[]]. congruence.
      * inversion IH as [|? ? Hh Ht]; subst. constructor; [|exact Ht].
        intros [H|H]; [congruence|contradiction].
Qed.

Lemma split_several sep s :
  In sep s -> removelast (Str.split sep s) <> [].
Proof.
  intros H. apply in_split in H as (a & b & ->).
  rewrite split_app_sep.
  pose proof (split_nonnil sep a) as Ha.
  pose proof (split_nonnil sep b) as Hb.
  rewrite removelast_app by exact Hb.
  destruct (Str.split sep a); [congruence|discriminate].
Qed.

Lemma digits_plain d :
  ~ In "/"%char (list_ascii_of_string (NilEmpty.string_of_uint d)).
Proof.
  induction d; simpl; try (intros [H|H]; [discriminate|contradiction]).
  intros [].
Qed.

Lemma occurrence_plain forest i n :
  ~ In "/"%char (Dom.occurrence forest i n).
Proof.
  unfold Dom.occurrence.
  set (b := List.length (filter (Dom.same_name n) (firstn i forest))).
  set (a := List.length (filter (Dom.same_name n) (skipn (S i) forest))).
  assert (H : ~ In "/"%char ("[" ++ Str.of_nat (S b) ++ "]")).
  { change ("[" ++ Str.of_nat (S b) ++ "]")
      with ("["%char :: Str.of_nat (S b) ++ ["]"%char]).
    intros [H|H]; [discriminate|].
    apply in_app_or in H as [H|[H|[]]]; [|discriminate].
    now apply digits_plain in H. }
  destruct b, a; try exact H. intros [].
Qed.

End ParentFacts.

(** X3.  A path that holds [/] is its parent path, [/] and its last step,
    which holds no [/]; the parent path of a path that holds no [/] is
    empty. *)
Theorem parentpath_last_step (p : str) :
  (In "/"%char p ->
   p = parentpath p ++ "/" ++ last (Str.split "/" p) []
   /\ ~ In "/"%char (last (Str.split "/" p) []))
  /\ (~ In "/"%char p -> parentpath p = []).
Proof.
  split.
  - intros H.
    pose proof (PathFacts.split_nonnil "/" p) as Hne.
    pose proof (ParentFacts.split_several "/" p H) as Hr.
    pose proof (ParentFacts.split_parts_plain "/" p) as Hf.
    pose proof (PathFacts.join_split "/" p) as Hj.
    rewrite (app_removelast_last [] Hne) in Hj, Hf.
    rewrite PathFacts.join_snoc in Hj by exact Hr.
    split; [symmetry; exact Hj|].
    apply Forall_app in Hf as [_ Hf]. now inversion Hf.
  - intros H. unfold parentpath.
    now rewrite (PathFacts.split_plain _ _ H).
Qed.

Lemma parentpath_last_step_witness :
  In "/"%char ("/html/body/div[2]/p" : str)
  /\ ("/html/body/div[2]/p" : str)
     = parentpath "/html/body/div[2]/p" ++ "/"
       ++ last (Str.split "/" "/html/body/div[2]/p") []
  /\ ~ In "/"%char (last (Str.split "/" "/html/body/div[2]/p") []).
Proof.
  split; [vm_compute; auto|].
  apply (proj1 (parentpath_last_step "/html/body/div[2]/p")).
  vm_compute. auto.
Defined.

(** X4.  The parent path of the path of an element is the path of its parent
    element, when its tag holds no [/]: the ranking counts the paths of the
    parents of the nodes. *)
Theorem parentpath_of_child (doc : document) (p : pos) (i : nat)
        (tag : str) (ks : list node) :
  p <> [] ->
  Dom.node_at doc (p ++ [i]) = Some (Elem tag ks) ->
  ~ In "/"%char tag ->
  parentpath (Dom.getpath doc (p ++ [i])) = Dom.getpath doc p.
Proof.
  intros Hp H Htag.
  unfold Dom.node_at in H. rewrite DomFacts.node_in_snoc in H.
  destruct p as [|j p]; [congruence|].
  destruct (Dom.node_in [doc] (j :: p)) as [[s|tag' ks']|] eqn:E;
    try discriminate.
  change (Dom.getpath doc ((j :: p) ++ [i]))
    with (Dom.getpath_in [doc] ((j :: p) ++ [i])).
  change (Dom.getpath doc (j :: p)) with (Dom.getpath_in [doc] (j :: p)).
  rewrite (GetpathFacts.getpath_in_app (j :: p) [i] [doc] tag' ks' E).
  simpl Dom.getpath_in at 2. rewrite H.
  change (Dom.name_of (Elem tag ks)) with tag.
  apply PathFacts.parentpath_step.
  intros Hin. apply in_app_or in Hin as [Hin|Hin]; [contradiction|].
  apply in_app_or in Hin as [Hin|[]].
  now apply ParentFacts.occurrence_plain in Hin.
Qed.

Lemma parentpath_of_child_witness :
  Dom.node_at doc_two_divs ([0; 1; 0] ++ [2])
  = Some (Elem "p"
            [Text "The third paragraph ends it. It has two sentences."])
  /\ parentpath (Dom.getpath doc_two_divs ([0; 1; 0] ++ [2]))
     = Dom.getpath doc_two_divs [0; 1; 0].
Proof.
  split; [vm_compute; reflexivity|].
  apply (parentpath_of_child doc_two_divs [0; 1; 0] 2 "p"
           [Text "The third paragraph ends it. It has two sentences."]).
  - discriminate.
  - vm_compute. reflexivity.
  - vm_compute. intros [H|[]]. discriminate.
Defined.

(** ** The sentences of a text *)

Module SegmentFacts.

Import PatternFacts.

Lemma in_interleave (c : ascii) (f : str) fs :
  forall seps,
    List.length fs = S (List.length seps) ->
    In f fs -> In c f -> In c (interleave fs seps).
Proof.
  induction fs as [|g fs IH]; intros seps Hl Hf Hc; [destruct Hf|].
  destruct seps as [|w seps]; simpl in Hl |- *.
  - destruct fs; [|discriminate]. destruct Hf as [->|[]]. exact Hc.
  - destruct Hf as [->|Hf]; [apply in_or_app; now left|].
    apply in_or_app. right. apply in_or_app. right.
    apply (IH seps); [lia|exact Hf|exact Hc].
Qed.

Lemma sub_go_incl (m : Re.pattern) (c : ascii) s :
  forall before skip, In c (Re.sub_go m before skip s) -> In c s.
Proof.
  induction s as [|x s IH]; intros before skip H; [exact H|].
  simpl in H. destruct skip as [|k].
  - destruct (m before (x :: s)) as [[|k]|].
    + destruct H as [->|H]; [now left|right; eauto].
    + right; eauto.
    + destruct H as [->|H]; [now left|right; eauto].
  - right; eauto.
Qed.

(** The characters of a piece are characters of the text. *)
Lemma pieces_incl (c : ascii) (f t : str) :
  In f (pieces t) -> In c f -> In c t.
Proof.
  intros Hf Hc. unfold pieces in Hf.
  destruct (split_go_interleave sentence_token_pattern Chr.is_space
              sentence_token_sound (Re.sub_empty bracket_pattern t) [] [] 0)
    as (seps & Hl & _ & He); [lia|reflexivity|].
  apply (sub_go_incl bracket_pattern c t [] 0).
  change (Re.sub_go bracket_pattern [] 0 t)
    with (rev [] ++ skipn 0 (Re.sub_empty bracket_pattern t)).
  rewrite He. now apply (in_interleave c f).
Qed.

Lemma split_go_head (m : Re.pattern) s :
  forall before cur skip,
    exists x, hd [] (Re.split_go m before cur skip s) = rev cur ++ x.
Proof.
  induction s as [|c s IH]; intros before cur skip; simpl.
  - exists []. now rewrite app_nil_r.
  - destruct skip as [|k]; [|apply IH].
    destruct (m before (c :: s)) as [[|k]|].
    + destruct (IH (c :: before) (c :: cur) 0) as [x Hx].
      exists (c :: x). rewrite Hx. simpl. now rewrite <- app_assoc.
    + exists []. simpl. now rewrite app_nil_r.
    + destruct (IH (c :: before) (c :: cur) 0) as [x Hx].
      exists (c :: x). rewrite Hx. simpl. now rewrite <- app_assoc.
Qed.

Lemma span_cons_succ P c s k :
  Re.span P (c :: s) = S k -> P c = true /\ Re.span P s = k.
Proof. simpl. destruct (P c); [now intros [= ->]|discriminate]. Qed.

(** A match takes all the white space there is: the piece after it does not
    start with white space. *)
Lemma split_go_unspaced s :
  forall before cur skip,
    (0 < skip -> skip = Re.span Chr.is_space s) ->
    Forall starts_unspaced
           (tl (Re.split_go sentence_token_pattern before cur skip s))
    /\ (cur = [] -> skip = Re.span Chr.is_space s ->
        starts_unspaced
          (hd [] (Re.split_go sentence_token_pattern before cur skip s))).
Proof.
  induction s as [|c s IH]; intros before cur skip Hsk.
  - simpl. split; [constructor|]. now intros ->.
  - destruct skip as [|k].
    + simpl Re.split_go.
      destruct (sentence_token_pattern before (c :: s)) as [[|k]|] eqn:Hm.
      * destruct (IH (c :: before) (c :: cur) 0) as [Ht _]; [lia|].
        split; [exact Ht|]. intros -> Hz.
        destruct (split_go_head sentence_token_pattern s (c :: before) [c] 0)
          as [x ->].
        simpl in Hz |- *. now destruct (Chr.is_space c).
      * apply sentence_token_some in Hm as (Hn & _ & _).
        symmetry in Hn. apply span_cons_succ in Hn as [_ Hn].
        destruct (IH (c :: before) [] k) as [Ht Hh]; [now intros _|].
        split; [|now intros ->].
        cbn [tl].
        destruct (Re.split_go sentence_token_pattern (c :: before) [] k s)
          as [|f fs] eqn:E; [constructor|].
        constructor; [|exact Ht]. now apply Hh.
      * destruct (IH (c :: before) (c :: cur) 0) as [Ht _]; [lia|].
        split; [exact Ht|]. intros -> Hz.
        destruct (split_go_head sentence_token_pattern s (c :: before) [c] 0)
          as [x ->].
        simpl in Hz |- *. now destruct (Chr.is_space c).
    + assert (Hs : S k = Re.span Chr.is_space (c :: s)) by (apply Hsk; lia).
      symmetry in Hs. apply span_cons_succ in Hs as [_ Hs].
      simpl Re.split_go.
      destruct (IH (c :: before) cur k) as [Ht Hh]; [now intros _|].
      split; [exact Ht|]. intros Hc _. now apply Hh.
Qed.

Lemma filter_snoc {A} (f : A -> bool) l x :
  filter f (l ++ [x]) = if f x then filter f l ++ [x] else filter f l.
Proof.
  rewrite filter_app. simpl. destruct (f x); [reflexivity|apply app_nil_r].
Qed.

(** The test on the end of the pieces can drop the last piece only. *)
Lemma sentences_or_removelast t :
  sentences t = pieces t \/ sentences t = removelast (pieces t).
Proof.
  unfold sentences.
  pose proof (pieces_sentence_like t) as Hf.
  pose proof (pieces_nonnil t) as Hne.
  pose proof (app_removelast_last [] Hne) as E.
  set (f := fun s : str => Str.endswith_any s sentence_ending).
  assert (Hr : filter f (removelast (pieces t)) = removelast (pieces t)).
  { apply filter_all. eapply Forall_impl; [|exact Hf].
    intros a Ha. now apply StrFacts.endswith_any_iff. }
  assert (Hfil : filter f (removelast (pieces t) ++ [last (pieces t) []])
                 = if f (last (pieces t) [])
                   then removelast (pieces t) ++ [last (pieces t) []]
                   else removelast (pieces t)).
  { rewrite filter_snoc, Hr. reflexivity. }
  rewrite <- E in Hfil at 1. rewrite Hfil.
  destruct (f (last (pieces t) [])); [left; now symmetry|now right].
Qed.

Lemma tl_removelast_incl {A} (l : list A) x :
  In x (tl (removelast l)) -> In x (tl l).
Proof.
  destruct l as [|a l]; [intros []|].
  destruct l as [|b l]; [intros []|].
  change (removelast (a :: b :: l)) with (a :: removelast (b :: l)).
  cbn [tl]. revert b. induction l as [|c l IH]; intros b; [intros []|].
  change (removelast (b :: c :: l)) with (b :: removelast (c :: l)).
  intros [->|H]; [now left|right; now apply IH].
Qed.

Lemma ci_startswith_app (a p l : list ascii) :
  map Chr.lower a = map Chr.lower p ->
  Re.ci_startswith (a ++ l) p = true.
Proof.
  revert a; induction p as [|y p IH]; intros a H; [reflexivity|].
  destruct a as [|x a]; [discriminate|].
  simpl in H. injection H as Hx Ha. simpl.
  rewrite (IH a Ha), andb_true_r.
  unfold Chr.ci_eqb. rewrite Hx. apply Ascii.eqb_refl.
Qed.

End SegmentFacts.

(** X5.  For any text, the text without its bracketed numbers is its pieces
    with runs of white space between them, and the sentences kept are all
    the pieces or all but the last: no piece but the last one is dropped. *)
Theorem sentences_drop_last_only (t : str) :
  (sentences t = pieces t \/ sentences t = removelast (pieces t))
  /\ exists seps,
      List.length (pieces t) = S (List.length seps)
      /\ Forall space_run seps
      /\ Re.sub_empty bracket_pattern t = interleave (pieces t) seps.
Proof.
  split; [apply SegmentFacts.sentences_or_removelast|].
  destruct (split_go_interleave sentence_token_pattern Chr.is_space
              PatternFacts.sentence_token_sound
              (Re.sub_empty bracket_pattern t) [] [] 0)
    as (seps & Hl & Hf & He); [lia|reflexivity|].
  now exists seps.
Qed.

(** X6.  A text in which no character is one of [. ? !] and the two quotes
    gives no pair: all of it is dropped. *)
Theorem no_terminal_no_pair (xp t : str) :
  forallb (fun c => negb (terminal c)) t = true ->
  node_pairs xp t = [].
Proof.
  intros H. rewrite PairFacts.node_pairs_mark_first.
  destruct (sentences t) as [|s l] eqn:E; [reflexivity|exfalso].
  assert (Hs : In s (sentences t)) by (rewrite E; now left).
  unfold sentences in Hs. apply filter_In in Hs as [Hp Hs].
  apply StrFacts.endswith_any_iff in Hs as (s' & c & -> & Hc).
  assert (Hin : In c t).
  { apply (SegmentFacts.pieces_incl c (s' ++ [c]) t Hp).
    apply in_or_app. right. now left. }
  rewrite forallb_forall in H. apply H in Hin.
  rewrite Hc in Hin. discriminate.
Qed.

Lemma no_terminal_no_pair_witness :
  forallb (fun c => negb (terminal c))
          ("a long line of text that goes on without any end" : str) = true
  /\ node_pairs "/html/body/p"
                "a long line of text that goes on without any end" = [].
Proof.
  split; [vm_compute; reflexivity|].
  apply (no_terminal_no_pair "/html/body/p"
           "a long line of text that goes on without any end").
  vm_compute. reflexivity.
Defined.

(** X7.  [sentence_token_pattern] matches at no position that one of the
    abbreviations precedes, in whatever case it is written and whatever
    stands before it and after this position. *)
Theorem no_match_after_abbreviation (u w w' s : str) :
  In w abbreviations ->
  map Chr.lower w' = map Chr.lower w ->
  sentence_token_pattern (rev (u ++ w')) s = None.
Proof.
  intros Hw Hl. unfold sentence_token_pattern.
  replace (forallb (fun a => negb (Re.behind_word a (rev (u ++ w'))))
                   abbreviations) with false;
    [now rewrite andb_false_r|].
  symmetry. apply not_true_is_false. intros H.
  rewrite forallb_forall in H. specialize (H w Hw).
  apply negb_true_iff in H. unfold Re.behind_word in H.
  rewrite rev_app_distr, SegmentFacts.ci_startswith_app in H;
    [discriminate|].
  rewrite !map_rev. now rewrite Hl.
Qed.

Lemma no_match_after_abbreviation_witness :
  In ("Prof." : str) abbreviations
  /\ map Chr.lower ("PROF." : str) = map Chr.lower ("Prof." : str)
  /\ sentence_token_pattern (rev (("We met " : str) ++ "PROF.")) " Smith."
     = None.
Proof.
  split; [vm_compute; auto 10|].
  split; [vm_compute; reflexivity|].
  apply (no_match_after_abbreviation "We met " "Prof." "PROF." " Smith.").
  - vm_compute. auto 10.
  - vm_compute. reflexivity.
Defined.

(** X8.  Each sentence of a text but the first starts with a character that
    is no white space: the white space between two sentences is all
    removed. *)
Theorem later_sentences_unspaced (t : str) :
  Forall (fun s => exists c s', s = c :: s' /\ Chr.is_space c = false)
         (tl (sentences t)).
Proof.
  apply Forall_forall. intros s Hs.
  assert (Hp : In s (tl (pieces t))).
  { destruct (SegmentFacts.sentences_or_removelast t) as [E|E];
      rewrite E in Hs; [exact Hs|].
    now apply SegmentFacts.tl_removelast_incl. }
  assert (Hl : sentence_like s).
  { pose proof (PairFacts.sentences_sentence_like t) as Hf.
    rewrite Forall_forall in Hf. apply Hf.
    destruct (sentences t); [destruct Hs|now right]. }
  destruct (SegmentFacts.split_go_unspaced
              (Re.sub_empty bracket_pattern t) [] [] 0) as [Hf _]; [lia|].
  rewrite Forall_forall in Hf. specialize (Hf s Hp).
  destruct s as [|c s'].
  - now apply StrFacts.sentence_like_nonempty in Hl.
  - now exists c, s'.
Qed.

(** ** The removal of the bracketed numbers *)

Section Removal.

Variable m : Re.pattern.
Variable Q : str -> Prop.

Hypothesis m_shape :
  forall before s n,
    m before s = Some n -> n <= List.length s /\ Q (firstn n s).

(** What [sub] keeps and what it removes make the text. *)
Lemma sub_go_shape s :
  forall before skip,
    skip <= List.length s ->
    exists keeps marks,
      List.length keeps = S (List.length marks)
      /\ Forall Q marks
      /\ skipn skip s = interleave keeps marks
      /\ Re.sub_go m before skip s = List.concat keeps.
Proof.
  induction s as [|c s IH]; intros before skip Hle.
  - simpl in Hle. assert (skip = 0) by lia; subst.
    exists [[]], []. repeat split; constructor.
  - destruct skip as [|k].
    + simpl Re.sub_go. destruct (m before (c :: s)) as [[|k]|] eqn:Hm.
      * destruct (IH (c :: before) 0) as (keeps & marks & Hl & Hq & Hi & Hs);
          [lia|].
        destruct keeps as [|k0 keeps]; [discriminate|].
        exists ((c :: k0) :: keeps), marks. repeat split; auto.
        -- simpl in Hi |- *. rewrite Hi. now destruct marks.
        -- simpl. now rewrite Hs.
      * destruct (m_shape _ _ _ Hm) as [Hn Hq0]. simpl in Hn.
        destruct (IH (c :: before) k) as (keeps & marks & Hl & Hq & Hi & Hs);
          [lia|].
        exists ([] :: keeps), (firstn (S k) (c :: s) :: marks).
        repeat split.
        -- simpl. now rewrite Hl.
        -- now constructor.
        -- cbn [skipn interleave app]. rewrite <- Hi.
           change (firstn (S k) (c :: s)) with (c :: firstn k s).
           simpl. now rewrite firstn_skipn.
        -- simpl. exact Hs.
      * destruct (IH (c :: before) 0) as (keeps & marks & Hl & Hq & Hi & Hs);
          [lia|].
        destruct keeps as [|k0 keeps]; [discriminate|].
        exists ((c :: k0) :: keeps), marks. repeat split; auto.
        -- simpl in Hi |- *. rewrite Hi. now destruct marks.
        -- simpl. now rewrite Hs.
    + simpl in Hle |- *. apply IH. lia.
Qed.

End Removal.

Module BracketFacts.

Import PatternFacts.

Lemma bracket_shape before s n :
  bracket_pattern before s = Some n ->
  n <= List.length s /\ is_marker (firstn n s).
Proof.
  intros H. split; [exact (proj1 (bracket_sound _ _ _ H))|].
  unfold bracket_pattern in H. destruct s as [|c s]; [discriminate|].
  destruct (Ascii.eqb c "[") eqn:Ec; [|discriminate].
  apply Ascii.eqb_eq in Ec. subst c.
  set (d := Re.span Chr.is_digit s) in *.
  destruct (skipn d s) as [|c' r] eqn:Es; [discriminate|].
  destruct (Ascii.eqb c' "]") eqn:Ec'; [|discriminate].
  apply Ascii.eqb_eq in Ec'. subst c'. injection H as <-.
  assert (Hs : s = firstn d s ++ "]"%char :: r)
    by (now rewrite <- Es, firstn_skipn).
  assert (Hd : List.length (firstn d s) = d)
    by (apply firstn_length_le, span_le).
  exists (firstn d s). split; [|apply span_forallb].
  replace (d + 2) with (S (d + 1)) by lia.
  change (firstn (S (d + 1)) ("["%char :: s))
    with ("["%char :: firstn (d + 1) s).
  change ("[" ++ firstn d s ++ "]")
    with ("["%char :: firstn d s ++ ["]"%char]).
  f_equal. rewrite Hs at 1. rewrite firstn_app, Hd.
  replace (d + 1 - d) with 1 by lia.
  rewrite firstn_all2 by (rewrite Hd; lia). reflexivity.
Qed.

Lemma sub_go_plain s :
  forall before,
    ~ In "["%char s -> Re.sub_go bracket_pattern before 0 s = s.
Proof.
  induction s as [|c s IH]; intros before H; [reflexivity|].
  simpl. destruct (Ascii.eqb c "[") eqn:E.
  - apply Ascii.eqb_eq in E. subst. exfalso. apply H. now left.
  - rewrite IH; [reflexivity|]. intros Hin. apply H. now right.
Qed.

End BracketFacts.

(** X9.  [bracket_pattern.sub('', t)] is what is left of [t] when bracketed
    numbers are taken out of it: [t] is pieces with bracketed numbers between
    them, the result is these pieces put together; a text that holds no [[]
    is left as it is. *)
Theorem bracket_sub_removes_markers (t : str) :
  (exists keeps marks,
      List.length keeps = S (List.length marks)
      /\ Forall is_marker marks
      /\ t = interleave keeps marks
      /\ Re.sub_empty bracket_pattern t = List.concat keeps)
  /\ (~ In "["%char t -> Re.sub_empty bracket_pattern t = t).
Proof.
  split; [|apply BracketFacts.sub_go_plain].
  destruct (sub_go_shape bracket_pattern is_marker BracketFacts.bracket_shape
              t [] 0) as (keeps & marks & H); [lia|].
  now exists keeps, marks.
Qed.

Lemma bracket_sub_removes_markers_witness :
  ~ In "["%char ("Fire is hot." : str)
  /\ Re.sub_empty bracket_pattern "Fire is hot." = "Fire is hot.".
Proof.
  split.
  - vm_compute. intuition discriminate.
  - apply (proj2 (bracket_sub_removes_markers "Fire is hot.")).
    vm_compute. intuition discriminate.
Defined.

(** ** The text of a node *)

Module TextFacts.

Import DomFacts XPathFacts.

Lemma node_in_app_under p :
  forall forest n r,
    Dom.node_in forest p = Some n ->
    Dom.node_in forest (p ++ r) = node_under n r.
Proof.
  induction p as [|i q IH]; intros forest n r H; [discriminate|].
  simpl in H |- *.
  destruct (nth_error forest i) as [k|]; [|discriminate].
  destruct q as [|j q'].
  - injection H as ->. simpl. now destruct r.
  - destruct k as [s|tag ks]; [discriminate|].
    change ((j :: q') ++ r) with (j :: (q' ++ r)).
    now apply (IH ks n r).
Qed.

Lemma filter_map_cons_eq i q ps :
  filter (Dom.is_prefix (i :: q)) (map (cons i) ps)
  = map (cons i) (filter (Dom.is_prefix q) ps).
Proof.
  induction ps as [|a ps IH]; [reflexivity|].
  cbn [map filter].
  change (Dom.is_prefix (i :: q) (i :: a))
    with ((i =? i) && Dom.is_prefix q a).
  rewrite Nat.eqb_refl. cbn [andb].
  destruct (Dom.is_prefix q a); cbn [map]; now rewrite IH.
Qed.

Lemma filter_map_cons_ne i k q ps :
  i <> k -> filter (Dom.is_prefix (i :: q)) (map (cons k) ps) = [].
Proof.
  intros H. apply Nat.eqb_neq in H.
  induction ps as [|a ps IH]; [reflexivity|].
  cbn [map filter].
  change (Dom.is_prefix (i :: q) (k :: a))
    with ((i =? k) && Dom.is_prefix q a).
  rewrite H. exact IH.
Qed.

Lemma filter_number_above i q subs :
  forall k,
    i < k -> filter (Dom.is_prefix (i :: q)) (number_from k subs) = [].
Proof.
  induction subs as [|ps subs IH]; intros k Hk; [reflexivity|].
  rewrite number_from_cons, filter_app, IH by lia.
  rewrite filter_map_cons_ne by lia. reflexivity.
Qed.

Lemma filter_number_from i q subs :
  forall k,
    k <= i ->
    filter (Dom.is_prefix (i :: q)) (number_from k subs)
    = match nth_error subs (i - k) with
      | Some ps => map (cons i) (filter (Dom.is_prefix q) ps)
      | None => []
      end.
Proof.
  induction subs as [|ps subs IH]; intros k Hk.
  - now destruct (i - k).
  - rewrite number_from_cons, filter_app.
    destruct (Nat.eq_dec k i) as [E|Hne].
    + subst k. rewrite Nat.sub_diag, filter_number_above by lia.
      rewrite app_nil_r. apply filter_map_cons_eq.
    + replace (i - k) with (S (i - S k)) by lia.
      rewrite filter_map_cons_ne by lia. simpl. apply IH. lia.
Qed.

Lemma filter_true {A} (f : A -> bool) l :
  (forall x, f x = true) -> filter f l = l.
Proof.
  intros H. induction l as [|a l IH]; simpl; [reflexivity|].
  now rewrite H, IH.
Qed.

(** The positions at and under a node are those of its subtree. *)
Lemma filter_prefix_forest p :
  forall forest n,
    Dom.node_in forest p = Some n ->
    filter (Dom.is_prefix p) (Dom.number (map Dom.subtree forest))
    = map (app p) (Dom.subtree n).
Proof.
  induction p as [|i q IH]; intros forest n H; [discriminate|].
  rewrite number_is_from, filter_number_from by lia.
  rewrite Nat.sub_0_r, nth_error_map. simpl in H.
  destruct (nth_error forest i) as [k|]; [|discriminate].
  cbn [option_map]. destruct q as [|j q'].
  - injection H as ->. rewrite filter_true by reflexivity. reflexivity.
  - destruct k as [s|tag ks]; [discriminate|].
    change (filter (Dom.is_prefix (j :: q')) (Dom.subtree (Elem tag ks)))
      with (filter (Dom.is_prefix (j :: q'))
                   (Dom.number (map Dom.subtree ks))).
    rewrite (IH ks n H), map_map. reflexivity.
Qed.

Lemma filter_andb {A} (f g : A -> bool) l :
  filter (fun x => f x && g x) l = filter g (filter f l).
Proof.
  induction l as [|a l IH]; simpl; [reflexivity|].
  destruct (f a); simpl; [|exact IH]. destruct (g a); now rewrite IH.
Qed.

Lemma filter_map_comm {A B} (f : B -> bool) (g : A -> B) l :
  filter f (map g l) = map g (filter (fun x => f (g x)) l).
Proof.
  induction l as [|a l IH]; simpl; [reflexivity|].
  destruct (f (g a)); simpl; now rewrite IH.
Qed.

Lemma kids_text tag ks :
  forall suf pre,
    ks = pre ++ suf ->
    Forall (fun k =>
              List.concat
                (map (fun r => text_of_node (node_under k r))
                     (filter (fun r => is_text_node (node_under k r))
                             (Dom.subtree k)))
              = text_content k) suf ->
    List.concat
      (map (fun r => text_of_node (node_under (Elem tag ks) r))
           (filter (fun r => is_text_node (node_under (Elem tag ks) r))
                   (number_from (List.length pre) (map Dom.subtree suf))))
    = List.concat (map text_content suf).
Proof.
  induction suf as [|k suf IHs]; intros pre E Hf; [reflexivity|].
  inversion Hf as [|? ? Hk Hf']; subst.
  cbn [map]. rewrite number_from_cons, filter_app, map_app, concat_app.
  cbn [List.concat]. f_equal.
  - rewrite filter_map_comm, map_map. rewrite <- Hk.
    assert (Hu : forall r,
               node_under (Elem tag (pre ++ k :: suf)) (List.length pre :: r)
               = node_under k r).
    { intros r. cbn [node_under Dom.node_in].
      rewrite nth_error_app2, Nat.sub_diag by lia. simpl.
      now destruct r. }
    f_equal.
    rewrite (filter_ext _ (fun r => is_text_node (node_under k r)))
      by (intros r; now rewrite Hu).
    apply map_ext. intros r. now rewrite Hu.
  - specialize (IHs (pre ++ [k])).
    rewrite length_app in IHs. simpl in IHs.
    rewrite Nat.add_1_r in IHs. apply IHs; [|exact Hf'].
    now rewrite <- app_assoc.
Qed.

(** The text nodes under a node, in document order, give its text. *)
Lemma text_under n :
  List.concat
    (map (fun r => text_of_node (node_under n r))
         (filter (fun r => is_text_node (node_under n r)) (Dom.subtree n)))
  = text_content n.
Proof.
  induction n as [s|tag ks IH] using node_ind2.
  - simpl. apply app_nil_r.
  - change (Dom.subtree (Elem tag ks))
      with ([] :: Dom.number (map Dom.subtree ks)).
    cbn [filter node_under is_text_node].
    rewrite number_is_from.
    exact (kids_text tag ks ks [] eq_refl IH).
Qed.

Lemma in_self_step doc p q :
  In p (Dom.positions doc) ->
  In q (eval_step doc (Step Self AnyNode []) [p]) <-> q = p.
Proof.
  intros Hp. rewrite in_eval_step.
  cbn [step_axis step_test step_preds on_axis forallb]. unfold test. split.
  - intros (_ & (c & [<-|[]] & Hc) & _). apply pos_eqb_eq in Hc. now subst.
  - intros ->. repeat split; auto.
    exists p. split; [now left|now apply pos_eqb_eq].
Qed.

(** [.//text()] from an element: the text nodes under it. *)
Lemma all_text_nodes_under doc p tag ks :
  Dom.node_at doc p = Some (Elem tag ks) ->
  xpath_from doc p all_text_nodes
  = filter (fun q => Dom.is_prefix p q && is_text_node (Dom.node_at doc q))
           (Dom.positions doc).
Proof.
  intros Hn.
  assert (Hp : In p (Dom.positions doc)).
  { apply in_positions. right. eexists; eassumption. }
  unfold xpath_from, all_text_nodes, eval. cbn [fold_left].
  set (S1 := eval_step doc (Step Self AnyNode []) [p]).
  set (S2 := eval_step doc (Step DescendantOrSelf AnyNode []) S1).
  unfold eval_step at 1. apply filter_ext_in. intros q Hq.
  cbn [step_axis step_test step_preds on_axis forallb].
  rewrite andb_true_r. apply eq_true_iff_eq.
  rewrite !andb_true_iff, existsb_exists.
  assert (HS2 : forall c, In c S2 <->
                          In c (Dom.positions doc)
                          /\ Dom.is_prefix p c = true).
  { intros c. unfold S2. rewrite in_eval_step.
    cbn [step_axis step_test step_preds on_axis forallb]. unfold test.
    split.
    - intros (Hc & (x & Hx & Hpre) & _). apply in_self_step in Hx; [|exact Hp].
      subst x. now split.
    - intros [Hc Hpre]. repeat split; auto.
      exists p. split; [now apply in_self_step|exact Hpre]. }
  assert (Ht : test doc IsText q = is_text_node (Dom.node_at doc q)).
  { unfold test, is_text_node.
    now destruct (Dom.node_at doc q) as [[?|? ?]|]. }
  rewrite Ht. split.
  - intros [(c & Hc & Hch) Htx]. split; [|exact Htx].
    apply HS2 in Hc as [_ Hc].
    apply is_prefix_iff in Hc as [r ->].
    apply is_child_iff in Hch as [i ->].
    apply is_prefix_iff. exists (r ++ [i]). now rewrite app_assoc.
  - intros [Hpre Htx]. split; [|exact Htx].
    apply is_prefix_iff in Hpre as [r ->].
    assert (Hr : r <> []).
    { intros ->. rewrite app_nil_r, Hn in Htx. discriminate. }
    exists (p ++ removelast r). split.
    + apply HS2. split.
      * rewrite (app_removelast_last 0 Hr), app_assoc in Hq.
        eapply in_positions_prefix. exact Hq.
      * apply is_prefix_iff. now eexists.
    + apply is_child_iff. exists (last r 0).
      rewrite <- app_assoc. f_equal. now apply app_removelast_last.
Qed.

Lemma all_text_content doc p tag ks :
  Dom.node_at doc p = Some (Elem tag ks) ->
  all_text doc p = text_content (Elem tag ks).
Proof.
  intros Hn. unfold all_text.
  rewrite (all_text_nodes_under doc p tag ks Hn), filter_andb.
  assert (Hne : p <> []) by (intros ->; discriminate).
  unfold Dom.positions.
  assert (Hf : filter (Dom.is_prefix p)
                      ([] :: Dom.number (map Dom.subtree [doc]))
               = filter (Dom.is_prefix p)
                        (Dom.number (map Dom.subtree [doc]))).
  { destruct p; [congruence|reflexivity]. }
  rewrite Hf, (filter_prefix_forest p [doc] _ Hn).
  rewrite filter_map_comm, map_map.
  rewrite <- (text_under (Elem tag ks)).
  assert (Hu : forall r,
             Dom.node_at doc (p ++ r) = node_under (Elem tag ks) r).
  { intros r. now apply node_in_app_under. }
  f_equal.
  rewrite (filter_ext _ (fun r => is_text_node (node_under (Elem tag ks) r)))
    by (intros r; now rewrite Hu).
  apply map_ext. intros r. unfold Dom.text_of. rewrite Hu. reflexivity.
Qed.

Lemma under_substring r :
  forall n n',
    node_under n r = Some n' ->
    exists a b, text_content n = a ++ text_content n' ++ b.
Proof.
  induction r as [|i r IH]; intros n n' H.
  - injection H as ->. exists [], []. now rewrite app_nil_r.
  - destruct n as [s|tag ks]; [discriminate|].
    cbn [node_under Dom.node_in] in H.
    destruct (nth_error ks i) as [k|] eqn:Ek; [|discriminate].
    assert (Hk : node_under k r = Some n') by (now destruct r).
    destruct (IH k n' Hk) as (a & b & E).
    apply nth_error_split in Ek as (l1 & l2 & -> & _).
    exists (List.concat (map text_content l1) ++ a),
           (b ++ List.concat (map text_content l2)).
    cbn [text_content]. rewrite map_app, concat_app. cbn [map List.concat].
    rewrite E. now rewrite <- !app_assoc.
Qed.

End TextFacts.

(** X10.  The text that is cut into sentences for an element,
    [''.join(n.xpath('.//text()'))], is all the text of the element: the text
    of its children, in order, that of a child element being in turn the text
    of its children, whatever their tags. *)
Theorem all_text_is_text_content (doc : document) (p : pos) (tag : str)
        (ks : list node) :
  Dom.node_at doc p = Some (Elem tag ks) ->
  all_text doc p = List.concat (map text_content ks).
Proof. apply TextFacts.all_text_content. Qed.

Lemma all_text_is_text_content_witness :
  Dom.node_at doc_pre [0; 1; 0]
  = Some (Elem "p"
            [ Elem "em" [Text "The first sentence of the article."];
              Elem "u" [Text "The second sentence of the article."] ])
  /\ all_text doc_pre [0; 1; 0]
     = List.concat
         (map text_content
              [ Elem "em" [Text "The first sentence of the article."];
                Elem "u" [Text "The second sentence of the article."] ]).
Proof.
  split; [vm_compute; reflexivity|].
  apply (all_text_is_text_content doc_pre [0; 1; 0] "p").
  vm_compute. reflexivity.
Defined.

(** X11.  The text of an element holds the text of each element under it:
    when both are candidates, the text of the inner one is cut into
    sentences twice, once for each. *)
Theorem all_text_holds_inner (doc : document) (p r : pos) (tag tag' : str)
        (ks ks' : list node) :
  Dom.node_at doc p = Some (Elem tag ks) ->
  Dom.node_at doc (p ++ r) = Some (Elem tag' ks') ->
  exists a b, all_text doc p = a ++ all_text doc (p ++ r) ++ b.
Proof.
  intros Hp Hr.
  rewrite (TextFacts.all_text_content _ _ _ _ Hp).
  rewrite (TextFacts.all_text_content _ _ _ _ Hr).
  apply (TextFacts.under_substring r).
  unfold Dom.node_at in Hr.
  now rewrite (TextFacts.node_in_app_under p [doc] _ r Hp) in Hr.
Qed.

Lemma all_text_holds_inner_witness :
  Dom.node_at doc_pre [0; 1; 0]
  = Some (Elem "p"
            [ Elem "em" [Text "The first sentence of the article."];
              Elem "u" [Text "The second sentence of the article."] ])
  /\ Dom.node_at doc_pre ([0; 1; 0] ++ [1])
     = Some (Elem "u" [Text "The second sentence of the article."])
  /\ exists a b,
      all_text doc_pre [0; 1; 0]
      = a ++ all_text doc_pre ([0; 1; 0] ++ [1]) ++ b.
Proof.
  split; [vm_compute; reflexivity|].
  split; [vm_compute; reflexivity|].
  apply (all_text_holds_inner doc_pre [0; 1; 0] [1] "p" "u"
           [ Elem "em" [Text "The first sentence of the article."];
             Elem "u" [Text "The second sentence of the article."] ]
           [Text "The second sentence of the article."]).
  - vm_compute. reflexivity.
  - vm_compute. reflexivity.
Defined.

(** ** The extraction as a whole *)

Module WholeFacts.

Lemma flat_map_nil {A B} (f : A -> list B) l :
  flat_map f l = [] <-> Forall (fun x => f x = []) l.
Proof.
  induction l as [|a l IH]; simpl.
  - split; [constructor|reflexivity].
  - split.
    + intros H. apply app_eq_nil in H as [Ha Hl].
      constructor; [exact Ha|now apply IH].
    + intros H. inversion H as [|? ? Ha Hl]; subst.
      rewrite Ha. now apply IH.
Qed.

Lemma filter_filter_sub {A} (f g : A -> bool) l :
  (forall x, f x = true -> g x = true) ->
  filter f (filter g l) = filter f l.
Proof.
  intros H. induction l as [|a l IH]; simpl; [reflexivity|].
  destruct (g a) eqn:Eg; simpl; [now rewrite IH|].
  destruct (f a) eqn:Ef; [|exact IH].
  apply H in Ef. congruence.
Qed.

Lemma long_text_mono (n m : Z) k :
  (n <= m)%Z -> long_text m k = true -> long_text n k = true.
Proof.
  intros Hle. destruct k as [s|]; simpl; [|trivial].
  rewrite !Z.ltb_lt. lia.
Qed.

Lemma is_candidate_mono doc (n m : Z) p :
  (n <= m)%Z -> is_candidate doc m p = true -> is_candidate doc n p = true.
Proof.
  intros Hle. unfold is_candidate.
  destruct (Dom.node_at doc p) as [[s|tag ks]|]; trivial.
  rewrite !andb_true_iff, !existsb_exists.
  intros [Hw (k & Hk & Hl)]. split; [exact Hw|].
  exists k. split; [exact Hk|]. now apply (long_text_mono n m).
Qed.

End WholeFacts.

(** X12.  [extract] raises [IndexError] when no candidate has a sentence in
    its text, and then only. *)
Theorem extract_raises_iff (doc : document) (min : option Z) :
  extract doc min = Raise IndexError
  <-> Forall (fun n => sentences (all_text doc n) = [])
             (xpath doc (build_text_finder min)).
Proof.
  assert (Hp : get_sentence_xpath_tuples doc (build_text_finder min) = []
               <-> Forall (fun n => sentences (all_text doc n) = [])
                          (xpath doc (build_text_finder min))).
  { rewrite PairFacts.tuples_blocks, WholeFacts.flat_map_nil.
    split; intros H; (eapply Forall_impl; [|exact H]); intros n Hn;
      cbv beta in *.
    - destruct (sentences (all_text doc n)); [reflexivity|discriminate].
    - now rewrite Hn. }
  rewrite <- Hp. split.
  - intros H.
    destruct (get_sentence_xpath_tuples doc (build_text_finder min)) eqn:E;
      [reflexivity|].
    destruct (ExtractFacts.extract_kept doc min)
      as (s & x & rest & _ & _ & He); [now rewrite E|].
    rewrite He in H. discriminate.
  - apply ExtractFacts.extract_raises.
Qed.

(** X13.  A greater [min_str_length] gives no new candidate: the query for
    it returns the nodes of the query for a lesser one that have a text
    child longer than it, in the same order. *)
Theorem candidates_shrink (doc : document) (min min' : option Z) :
  (threshold min <= threshold min')%Z ->
  xpath doc (build_text_finder min')
  = filter (is_candidate doc (threshold min'))
           (xpath doc (build_text_finder min)).
Proof.
  intros H.
  rewrite !ExtractFacts.finder_threshold, !XPathFacts.finder_candidates.
  symmetry. apply WholeFacts.filter_filter_sub.
  intros p. now apply WholeFacts.is_candidate_mono.
Qed.

Lemma candidates_shrink_witness :
  (threshold None <= threshold (Some 32%Z))%Z
  /\ xpath doc_two_divs (build_text_finder (Some 32%Z))
     = filter (is_candidate doc_two_divs (threshold (Some 32%Z)))
              (xpath doc_two_divs (build_text_finder None)).
Proof.
  split; [vm_compute; discriminate|].
  apply (candidates_shrink doc_two_divs None (Some 32%Z)).
  vm_compute. discriminate.
Defined.

(** X14.  [extract] keeps every pair whose path has for parent path the
    first parent of the ranking. *)
Theorem top_parent_pairs_kept (doc : document) (min : option Z)
        (P : str) (c : nat) (rest : Counter.t) (s x : str) :
  get_xpath_frequency_distribution
    (map snd (get_sentence_xpath_tuples doc (build_text_finder min)))
  = (P, c) :: rest ->
  In (s, x) (get_sentence_xpath_tuples doc (build_text_finder min)) ->
  parentpath x = P ->
  In (s, x) (kept_pairs doc min).
Proof.
  intros E Hin HP. unfold kept_pairs. cbv zeta. rewrite E.
  apply filter_In. split; [exact Hin|].
  cbn [fst snd]. rewrite <- HP. apply PathFacts.parentpath_contains.
Qed.

Lemma top_parent_pairs_kept_witness :
  get_xpath_frequency_distribution
    (map snd (get_sentence_xpath_tuples doc_two_divs (build_text_finder None)))
  = [("/html/body/div[1]" : str, 4); ("/html/body/div[2]" : str, 1)]
  /\ In ("It has two sentences." : str, "/html/body/div[1]/p[3]" : str)
        (kept_pairs doc_two_divs None).
Proof.
  split; [vm_compute; reflexivity|].
  apply (top_parent_pairs_kept doc_two_divs None "/html/body/div[1]" 4
           [("/html/body/div[2]" : str, 1)]).
  - vm_compute. reflexivity.
  - vm_compute. right. right. right. left. reflexivity.
  - vm_compute. reflexivity.
Defined.

(** X15.  When the paths of all the pairs have the same parent path, and
    there is a pair, [extract] drops nothing: it returns the texts of all the
    pairs joined by a space, without the first two characters. *)
Theorem one_parent_keeps_all (doc : document) (min : option Z) :
  get_sentence_xpath_tuples doc (build_text_finder min) <> [] ->
  (forall x y,
      In x (map snd (get_sentence_xpath_tuples doc (build_text_finder min))) ->
      In y (map snd (get_sentence_xpath_tuples doc (build_text_finder min))) ->
      parentpath x = parentpath y) ->
  extract doc min
  = Return (skipn 2
              (Str.join " "
                 (map fst
                    (get_sentence_xpath_tuples doc (build_text_finder min))))).
Proof.
  intros Hne Hsame. unfold extract. cbv zeta.
  set (pairs := get_sentence_xpath_tuples doc (build_text_finder min)) in *.
  destruct (get_xpath_frequency_distribution (map snd pairs))
    as [|[P c] rk] eqn:Er.
  - exfalso. apply (RankingFacts.ranking_nonempty (map snd pairs));
      [|exact Er].
    destruct pairs; [congruence|discriminate].
  - destruct (RankingFacts.ranking_head _ _ _ _ Er) as (x0 & Hx0 & HP).
    rewrite PatternFacts.filter_all; [reflexivity|].
    apply Forall_forall. intros [s x] Hin. cbn [fst snd].
    assert (Hx : In x (map snd pairs))
      by (apply in_map_iff; now exists (s, x)).
    rewrite HP, <- (Hsame x x0 Hx Hx0).
    apply PathFacts.parentpath_contains.
Qed.

Lemma one_parent_keeps_all_witness :
  extract doc_two_texts None
  = Return (("The first long sentence is here. And one more. " : str)
            ++ "The second long text of it is here.").
Proof.
  rewrite (one_parent_keeps_all doc_two_texts None).
  - vm_compute. reflexivity.
  - vm_compute. discriminate.
  - intros x y Hx Hy. vm_compute in Hx, Hy.
    destruct Hx as [<-|[<-|[<-|[]]]]; destruct Hy as [<-|[<-|[<-|[]]]];
      reflexivity.
Defined.

Module EndFacts.

Import PatternFacts.

Lemma terminal_not_bracket c : terminal c = true -> bracket_char c = false.
Proof.
  intros H. apply one_of_In in H.
  destruct H as [<-|[<-|[<-|[<-|[<-|[]]]]]]; reflexivity.
Qed.

Lemma pieces_last_char c t :
  Chr.is_space c = false -> bracket_char c = false ->
  exists f, last (pieces (t ++ [c])) [] = f ++ [c].
Proof.
  intros Hs Hb. unfold pieces, Re.sub_empty.
  destruct (sub_go_last bracket_pattern bracket_char bracket_sound c t
              Hb [] 0) as [r ->]; [lia|reflexivity|].
  apply (split_go_last sentence_token_pattern Chr.is_space
           sentence_token_sound c r Hs); [lia|reflexivity].
Qed.

End EndFacts.

(** X16.  For a text that ends with any of the characters of
    [sentence_ending], no piece is dropped: the sentences are the pieces,
    and the text without its bracketed numbers is these sentences with runs
    of white space between them. *)
Theorem sentences_keep_all (t : str) :
  Str.endswith_any t sentence_ending = true ->
  sentences t = pieces t
  /\ exists seps,
      List.length (sentences t) = S (List.length seps)
      /\ Forall space_run seps
      /\ Re.sub_empty bracket_pattern t = interleave (sentences t) seps.
Proof.
  intros H. apply StrFacts.endswith_any_iff in H as (t' & c & -> & Hc).
  assert (E : sentences (t' ++ [c]) = pieces (t' ++ [c])).
  { destruct (SegmentFacts.sentences_or_removelast (t' ++ [c])) as [E|E];
      [exact E|].
    unfold sentences. apply PatternFacts.filter_all.
    pose proof (PatternFacts.pieces_sentence_like (t' ++ [c])) as Hf.
    pose proof (PatternFacts.pieces_nonnil (t' ++ [c])) as Hne.
    destruct (EndFacts.pieces_last_char c t'
                (PatternFacts.terminal_not_space c Hc)
                (EndFacts.terminal_not_bracket c Hc)) as [f Hl].
    rewrite (app_removelast_last [] Hne). apply Forall_app. split.
    - eapply Forall_impl; [|exact Hf].
      intros a Ha. now apply StrFacts.endswith_any_iff.
    - constructor; [|constructor]. apply StrFacts.endswith_any_iff.
      exists f, c. split; [exact Hl|exact Hc]. }
  split; [exact E|]. rewrite E.
  destruct (split_go_interleave sentence_token_pattern Chr.is_space
              PatternFacts.sentence_token_sound
              (Re.sub_empty bracket_pattern (t' ++ [c])) [] [] 0)
    as (seps & Hl & Hf & He); [lia|reflexivity|].
  now exists seps.
Qed.

Lemma sentences_keep_all_witness :
  Str.endswith_any "Is it wet?  'It is!'" sentence_ending = true
  /\ sentences "Is it wet?  'It is!'" = pieces "Is it wet?  'It is!'".
Proof.
  split; [vm_compute; reflexivity|].
  apply (sentences_keep_all "Is it wet?  'It is!'").
  vm_compute. reflexivity.
Defined.
